(** * linq.hpp: lazy enumerators over a linear range

    A shallow embedding of [src/include/linq.hpp].  Every class of the
    header becomes a record holding the fields of the C++ object, and every
    virtual member becomes a function on that record: [deref] is
    [operator*], [next] is [operator++], [has_more] is [operator bool].
    Several classes call their fields [parent_] and [predicate_]; here
    these carry the adapter's name in front ([take_parent_], ...), and
    [where_] stands for the member [where], a reserved word.

    An adapter keeps its parent by reference ([enumerator<T> &parent_]) and
    mutates it in place.  In a chain each parent has one adapter above it, so
    the record of an adapter contains the state of its parent: what the C++
    program reads from the parent variable after an operation on the adapter
    is the [parent_] field of the adapter's new state.

    Undefined behaviour of the C++ program (reading through an iterator that
    is outside its storage, moving an iterator beyond the end of its
    storage, signed overflow) is the outcome [Fault].  The
    [while] loops of the header need not terminate for an arbitrary
    enumerator, so they run on fuel; running out of it is [Timeout]. *)

From Stdlib Require Import List ZArith Lia Bool Arith PeanoNat.
Import ListNotations.

Set Implicit Arguments.

(** ** Outcomes and the fuel monad *)

Inductive outcome (A : Type) : Type :=
| Ret (a : A)
| Fault
| Timeout.

Arguments Ret {A} a.
Arguments Fault {A}.
Arguments Timeout {A}.

Definition M (A : Type) : Type := nat -> outcome A.

Definition ret {A} (a : A) : M A := fun _ => Ret a.

Definition fault {A} : M A := fun _ => Fault.

Definition timeout {A} : M A := fun _ => Timeout.

Definition bind {A B} (m : M A) (k : A -> M B) : M B :=
  fun n => match m n with
           | Ret a => k a n
           | Fault => Fault
           | Timeout => Timeout
           end.

Notation "x <- m ;; k" := (bind m (fun x => k))
  (at level 61, m at next level, right associativity).

Definition outcome_map {A B} (f : A -> B) (o : outcome A) : outcome B :=
  match o with
  | Ret a => Ret (f a)
  | Fault => Fault
  | Timeout => Timeout
  end.

(** [m ==> a]: with enough fuel the computation returns [a]. *)
Definition returns {A} (m : M A) (a : A) : Prop :=
  exists N, forall n, N <= n -> m n = Ret a.

Notation "m ==> a" := (returns m a) (at level 70, no associativity).

(** A loop on fuel returns [a] once both its gas and the fuel of its body
    are large enough. *)
Definition loop_returns {A} (f : nat -> M A) (a : A) : Prop :=
  exists N, forall gas n, N <= gas -> N <= n -> f gas n = Ret a.

(** ** The type [int] *)

Definition INT_MIN : Z := - 2 ^ 31.
Definition INT_MAX : Z := 2 ^ 31 - 1.

(** [--last_] on an [int]: overflow below [INT_MIN] is undefined. *)
Definition int_decr (n : Z) : M Z :=
  if (INT_MIN <? n)%Z then ret (n - 1)%Z else fault.

(** ** The abstract class [enumerator<T>] *)

Class enumerator (E T : Type) : Type := {
  deref : E -> M T;          (* T operator*() const *)
  next : E -> M E;           (* enumerator<T> &operator++() *)
  has_more : E -> M bool     (* explicit operator bool() const *)
}.

(** An output iterator into storage that already exists: [*it = x] writes
    at [cursor], and is undefined outside the storage; [++it] moves on. *)
Record out_iter (T : Type) : Type := {
  storage : list T;
  cursor : nat
}.

Definition store {T} (it : out_iter T) (x : T) : M (out_iter T) :=
  if cursor it <? length (storage it)
  then ret {| storage := firstn (cursor it) (storage it) ++ x
                           :: skipn (S (cursor it)) (storage it);
              cursor := cursor it |}
  else fault.

Definition out_incr {T} (it : out_iter T) : out_iter T :=
  {| storage := storage it; cursor := S (cursor it) |}.

(** The iterator after [v] has been written through it, one element per
    position from [cursor] on. *)
Definition written {T} (it : out_iter T) (v : list T) : out_iter T :=
  {| storage := firstn (cursor it) (storage it) ++ v
                  ++ skipn (cursor it + length v) (storage it);
     cursor := cursor it + length v |}.

Section Sinks.
Context {E T : Type} `{enumerator E T}.

(** [to_vector]: the loop [while ( *this) { push_back( **this); ++( *this); }].
    The result is the vector together with the state the enumerator is
    left in. *)
Fixpoint to_vector_loop (gas : nat) (e : E) (result : list T)
  : M (list T * E) :=
  match gas with
  | 0 => timeout
  | S g =>
      b <- has_more e ;;
      if b then
        x <- deref e ;;
        e' <- next e ;;
        to_vector_loop g e' (result ++ [x])
      else ret (result, e)
  end.

Definition to_vector (e : E) : M (list T * E) :=
  fun n => to_vector_loop n e [] n.

(** [copy_to]: the same loop, writing through [it]. *)
Fixpoint copy_to_loop (gas : nat) (e : E) (it : out_iter T)
  : M (E * out_iter T) :=
  match gas with
  | 0 => timeout
  | S g =>
      b <- has_more e ;;
      if b then
        x <- deref e ;;
        it' <- store it x ;;
        e' <- next e ;;
        copy_to_loop g e' (out_incr it')
      else ret (e, it)
  end.

Definition copy_to (e : E) (it : out_iter T) : M (E * out_iter T) :=
  fun n => copy_to_loop n e it n.

(** [k] calls of [operator++] in a row. *)
Fixpoint advance_n (k : nat) (e : E) : M E :=
  match k with
  | 0 => ret e
  | S k' => e' <- next e ;; advance_n k' e'
  end.
End Sinks.

(** ** [range_enumerator]: the source cursor

    The iterators [begin_] and [end_] are positions in the storage [data]
    they point into.  Position [length data] is the one past the end of the
    storage: an iterator may stand there, but reading through it or moving
    it further is undefined. *)
Record range_enumerator (T : Type) : Type := {
  data : list T;
  begin_ : nat;
  end_ : nat
}.

Definition range_deref {T} (r : range_enumerator T) : M T :=
  match nth_error (data r) (begin_ r) with
  | Some x => ret x
  | None => fault
  end.

Definition range_next {T} (r : range_enumerator T) : M (range_enumerator T) :=
  if begin_ r <? length (data r)
  then ret {| data := data r; begin_ := S (begin_ r); end_ := end_ r |}
  else fault.

Definition range_has_more {T} (r : range_enumerator T) : M bool :=
  ret (negb (begin_ r =? end_ r)).

#[export] Instance range_is_enumerator {T} : enumerator (range_enumerator T) T := {
  deref := range_deref;
  next := range_next;
  has_more := range_has_more
}.

(** [from(begin, end)] *)
Definition from {T} (d : list T) (b e : nat) : range_enumerator T :=
  {| data := d; begin_ := b; end_ := e |}.

(** The range over a whole container: [from(v.begin(), v.end())]. *)
Definition from_all {T} (d : list T) : range_enumerator T :=
  from d 0 (length d).

(** ** [drop_enumerator] *)
Record drop_enumerator (E : Type) : Type := {
  drop_parent_ : E
}.

Section DropAdapter.
Context {E T : Type} `{enumerator E T}.

(** The constructor's loop [for (int i = 0; i < count; ++i) ++parent_;].
    [gas] is the loop's variant [count - i]. *)
Fixpoint drop_for (gas : nat) (i count : Z) (p : E) : M E :=
  if (i <? count)%Z then
    match gas with
    | 0 => timeout
    | S g => p' <- next p ;; drop_for g (i + 1)%Z count p'
    end
  else ret p.

Definition drop (p : E) (count : Z) : M (drop_enumerator E) :=
  p' <- drop_for (Z.to_nat count) 0%Z count p ;;
  ret {| drop_parent_ := p' |}.

Definition drop_deref (d : drop_enumerator E) : M T :=
  deref (drop_parent_ d).

Definition drop_next (d : drop_enumerator E) : M (drop_enumerator E) :=
  p' <- next (drop_parent_ d) ;;
  ret {| drop_parent_ := p' |}.

Definition drop_has_more (d : drop_enumerator E) : M bool :=
  has_more (drop_parent_ d).

#[export] Instance drop_is_enumerator : enumerator (drop_enumerator E) T := {
  deref := drop_deref;
  next := drop_next;
  has_more := drop_has_more
}.
End DropAdapter.

(** ** [take_enumerator] *)
Record take_enumerator (E : Type) : Type := {
  take_parent_ : E;
  last_ : Z
}.

Section TakeAdapter.
Context {E T : Type} `{enumerator E T}.

Definition take (p : E) (count : Z) : take_enumerator E :=
  {| take_parent_ := p; last_ := count |}.

Definition take_deref (t : take_enumerator E) : M T :=
  deref (take_parent_ t).

Definition take_next (t : take_enumerator E) : M (take_enumerator E) :=
  l <- int_decr (last_ t) ;;
  if (0 <? l)%Z then
    p' <- next (take_parent_ t) ;;
    ret {| take_parent_ := p'; last_ := l |}
  else ret {| take_parent_ := take_parent_ t; last_ := l |}.

Definition take_has_more (t : take_enumerator E) : M bool :=
  b <- has_more (take_parent_ t) ;;
  if b then ret (0 <? last_ t)%Z else ret false.

#[export] Instance take_is_enumerator : enumerator (take_enumerator E) T := {
  deref := take_deref;
  next := take_next;
  has_more := take_has_more
}.
End TakeAdapter.

(** ** [select_enumerator] *)
Record select_enumerator (E T U : Type) : Type := {
  select_parent_ : E;
  func_ : T -> U
}.

Section SelectAdapter.
Context {E T U : Type} `{enumerator E T}.

Definition select (p : E) (func : T -> U) : select_enumerator E T U :=
  {| select_parent_ := p; func_ := func |}.

Definition select_deref (s : select_enumerator E T U) : M U :=
  x <- deref (select_parent_ s) ;;
  ret (func_ s x).

Definition select_next (s : select_enumerator E T U)
  : M (select_enumerator E T U) :=
  p' <- next (select_parent_ s) ;;
  ret {| select_parent_ := p'; func_ := func_ s |}.

Definition select_has_more (s : select_enumerator E T U) : M bool :=
  has_more (select_parent_ s).

#[export] Instance select_is_enumerator
  : enumerator (select_enumerator E T U) U := {
  deref := select_deref;
  next := select_next;
  has_more := select_has_more
}.

(** What draining [select(func)] is compared with: [func] applied to each
    element drained from the parent, and the adapter around the state the
    parent is left in. *)
Definition select_result (func : T -> U) (r : list T * E)
  : list U * select_enumerator E T U :=
  (map func (fst r), select (snd r) func).
End SelectAdapter.

(** ** [until_enumerator] *)
Record until_enumerator (E T : Type) : Type := {
  until_parent_ : E;
  until_predicate_ : T -> bool
}.

Section UntilAdapter.
Context {E T : Type} `{enumerator E T}.

Definition until (p : E) (predicate : T -> bool) : until_enumerator E T :=
  {| until_parent_ := p; until_predicate_ := predicate |}.

Definition until_deref (u : until_enumerator E T) : M T :=
  deref (until_parent_ u).

(** [(bool) parent_ && !predicate_( *parent_)] *)
Definition until_has_more (u : until_enumerator E T) : M bool :=
  b <- has_more (until_parent_ u) ;;
  if b then
    x <- deref (until_parent_ u) ;;
    ret (negb (until_predicate_ u x))
  else ret false.

Definition until_next (u : until_enumerator E T) : M (until_enumerator E T) :=
  b <- until_has_more u ;;
  if b then
    p' <- next (until_parent_ u) ;;
    ret {| until_parent_ := p'; until_predicate_ := until_predicate_ u |}
  else ret u.

#[export] Instance until_is_enumerator : enumerator (until_enumerator E T) T := {
  deref := until_deref;
  next := until_next;
  has_more := until_has_more
}.

(** [until_eq(object)], with [eqb] for [operator==] of [T]. *)
Definition until_eq (eqb : T -> T -> bool) (p : E) (object : T)
  : until_enumerator E T :=
  until p (fun check => eqb check object).
End UntilAdapter.

(** ** [where_enumerator] *)
Record where_enumerator (E T : Type) : Type := {
  where_parent_ : E;
  where_predicate_ : T -> bool
}.

Section WhereAdapter.
Context {E T : Type} `{enumerator E T}.

(** The member initialisers [parent_{parent}, predicate_{predicate}]. *)
Definition where_init (p : E) (predicate : T -> bool) : where_enumerator E T :=
  {| where_parent_ := p; where_predicate_ := predicate |}.

Definition where_deref (w : where_enumerator E T) : M T :=
  deref (where_parent_ w).

Definition where_has_more (w : where_enumerator E T) : M bool :=
  has_more (where_parent_ w).

(** The loop of [operator++]:
    [while ((bool) *this && !predicate_( *parent_)) ++parent_;] *)
Fixpoint where_while (gas : nat) (w : where_enumerator E T)
  : M (where_enumerator E T) :=
  match gas with
  | 0 => timeout
  | S g =>
      b <- where_has_more w ;;
      if b then
        x <- deref (where_parent_ w) ;;
        if negb (where_predicate_ w x) then
          p' <- next (where_parent_ w) ;;
          where_while g {| where_parent_ := p';
                           where_predicate_ := where_predicate_ w |}
        else ret w
      else ret w
  end.

Definition where_next (w : where_enumerator E T) : M (where_enumerator E T) :=
  p' <- next (where_parent_ w) ;;
  fun n => where_while n {| where_parent_ := p';
                            where_predicate_ := where_predicate_ w |} n.

#[export] Instance where_is_enumerator : enumerator (where_enumerator E T) T := {
  deref := where_deref;
  next := where_next;
  has_more := where_has_more
}.

(** The constructor:
    [if ((bool) parent_ && !predicate_( *parent_)) ++( *this);] *)
Definition where_ (p : E) (predicate : T -> bool) : M (where_enumerator E T) :=
  let w := where_init p predicate in
  b <- has_more p ;;
  if b then
    x <- deref p ;;
    if negb (predicate x) then where_next w else ret w
  else ret w.

(** [where_neq(object)], with [eqb] for [operator==] of [T]. *)
Definition where_neq (eqb : T -> T -> bool) (p : E) (object : T)
  : M (where_enumerator E T) :=
  where_ p (fun check => negb (eqb check object)).
End WhereAdapter.

(** ** A parent that counts the calls of its [operator++]

    Wrapping a parent in [counting] leaves what it enumerates unchanged and
    records how many times an adapter above it has advanced it. *)
Record counting (E : Type) : Type := {
  inner : E;
  calls : nat
}.

Section Counting.
Context {E T : Type} `{enumerator E T}.

Definition watch (e : E) : counting E := {| inner := e; calls := 0 |}.

Definition counting_next (c : counting E) : M (counting E) :=
  e' <- next (inner c) ;;
  ret {| inner := e'; calls := S (calls c) |}.

#[export] Instance counting_is_enumerator : enumerator (counting E) T := {
  deref := fun c => deref (inner c);
  next := counting_next;
  has_more := fun c => has_more (inner c)
}.
End Counting.

(** ** A sample predicate, and the vector a run returns on given fuel *)

Definition is_even (z : Z) : bool := Z.even z.

Definition run_vector {E T} (m : M (list T * E)) (n : nat) : outcome (list T) :=
  outcome_map fst (m n).

(** ** What an enumerator enumerates

    [enumerates e l]: [e] is a well-behaved cursor over the finite sequence
    [l].  While [l] is not empty, [operator bool] answers [true],
    [operator*] reads the head and [operator++] moves to a cursor over the
    tail; on the empty sequence [operator bool] answers [false]. *)
Section Enumerates.
Context {E T : Type} `{enumerator E T}.

Inductive enumerates : E -> list T -> Prop :=
| enumerates_nil e :
    has_more e ==> false ->
    enumerates e []
| enumerates_cons e e' x l :
    has_more e ==> true ->
    deref e ==> x ->
    next e ==> e' ->
    enumerates e' l ->
    enumerates e (x :: l).

(** [e'] is reached from [e] by exactly [k] calls of [operator++]. *)
Inductive advanced : nat -> E -> E -> Prop :=
| advanced_0 e : advanced 0 e e
| advanced_S k e e' e'' :
    next e ==> e' -> advanced k e' e'' -> advanced (S k) e e''.
End Enumerates.

(** The elements of a range, and the ranges [from] is meant to be given. *)
Definition range_elems {T} (r : range_enumerator T) : list T :=
  firstn (end_ r - begin_ r) (skipn (begin_ r) (data r)).

Definition wf_range {T} (r : range_enumerator T) : Prop :=
  begin_ r <= end_ r /\ end_ r <= length (data r).

(** The longest prefix of [l] none of whose elements satisfies [p]. *)
Fixpoint prefix_until {T} (p : T -> bool) (l : list T) : list T :=
  match l with
  | [] => []
  | x :: l' => if p x then [] else x :: prefix_until p l'
  end.

(** The invariant of [where_enumerator]: when the parent has more, its
    current element satisfies the predicate (read with fuel [n]). *)
Definition where_invariant {E T} `{enumerator E T}
    (w : where_enumerator E T) (n : nat) : Prop :=
  has_more (where_parent_ w) n = Ret true ->
  exists x, deref (where_parent_ w) n = Ret x /\ where_predicate_ w x = true.

(** The states a [where] adapter built over [p0] with predicate [P] goes
    through on fuel [n]: the one its constructor returns, and those its
    [operator++] returns. *)
Inductive where_reachable {E T} `{enumerator E T} (P : T -> bool) (p0 : E)
    (n : nat) : where_enumerator E T -> Prop :=
| reach_constructed w :
    where_ p0 P n = Ret w -> where_reachable P p0 n w
| reach_advanced w w' :
    where_reachable P p0 n w -> next w n = Ret w' -> where_reachable P p0 n w'.

(** * Properties *)

(** ** Sample pipelines *)

Example drop2_take3 :
  run_vector (d <- drop (from_all [0; 1; 2; 3; 4; 5; 6]%Z) 2 ;;
              to_vector (take d 3)) 20
  = Ret [2; 3; 4]%Z.
Proof. reflexivity. Qed.

Example where_even_until_6 :
  run_vector (w <- where_ (from_all [0; 1; 2; 3; 4; 5; 6; 7; 8]%Z) is_even ;;
              to_vector (until_eq Z.eqb w 6%Z)) 20
  = Ret [0; 2; 4]%Z.
Proof. reflexivity. Qed.

Example where_neq_1 :
  run_vector (w <- where_neq Z.eqb (from_all [1; 2; 1; 3; 1]%Z) 1%Z ;;
              to_vector w) 20
  = Ret [2; 3]%Z.
Proof. reflexivity. Qed.


(** ** The fuel monad *)

Lemma returns_ret {A} (a : A) : ret a ==> a.
Proof. exists 0. reflexivity. Qed.

Lemma returns_bind {A B} (m : M A) (k : A -> M B) a b :
  m ==> a -> k a ==> b -> (x <- m ;; k x) ==> b.
Proof.
  intros [N1 H1] [N2 H2]. exists (Nat.max N1 N2). intros n Hn.
  unfold bind. rewrite H1 by lia. apply H2. lia.
Qed.

Lemma returns_at {A} (m : M A) a : m ==> a -> exists n, m n = Ret a.
Proof. intros [N HN]. exists N. apply HN. lia. Qed.

Lemma returns_inj {A} (m : M A) a b : m ==> a -> m ==> b -> a = b.
Proof.
  intros [N1 H1] [N2 H2].
  specialize (H1 (Nat.max N1 N2)). specialize (H2 (Nat.max N1 N2)).
  rewrite H1 in H2 by lia. injection H2; [auto | lia].
Qed.

Lemma returns_ret_inv {A} (a b : A) : ret a ==> b -> a = b.
Proof. intros Hr. eapply returns_inj; [apply returns_ret | exact Hr]. Qed.

Lemma loop_returns_diag {A} (f : nat -> M A) a :
  loop_returns f a -> (fun n => f n n) ==> a.
Proof. intros [N HN]. exists N. intros n Hn. apply HN; lia. Qed.

(** Rewriting with the facts [forall n, N <= n -> m n = Ret a] in scope. *)
Ltac fuel_step :=
  match goal with
  | Hm : forall n, ?N <= n -> ?m n = Ret _ |- context [?m ?k] =>
      rewrite (Hm k) by lia
  end.

Ltac fuel_steps := unfold bind; repeat (fuel_step; cbn [negb]).

(** ** Draining a well-behaved enumerator *)
Section SinkFacts.
Context {E T : Type} `{enumerator E T}.

Lemma enumerates_has_more (e : E) l :
  enumerates e l -> has_more e ==> negb (length l =? 0).
Proof. intros He. destruct He; assumption. Qed.

Lemma to_vector_loop_enumerates (e : E) l :
  enumerates e l ->
  forall acc, exists e',
    loop_returns (fun gas => to_vector_loop gas e acc) (acc ++ l, e')
    /\ has_more e' ==> false
    /\ advanced (length l) e e'.
Proof.
  induction 1 as [e Hm | e e1 x l Hm Hd Hn He IH]; intros acc.
  - exists e. split; [| split; [assumption | constructor]].
    destruct Hm as [N HN]. exists (S N). intros gas n Hg Hn.
    destruct gas as [| g]; [lia |]. cbn [to_vector_loop].
    fuel_steps. rewrite app_nil_r. reflexivity.
  - destruct (IH (acc ++ [x])) as (e2 & [N4 HL] & Hex & Hadv).
    exists e2. split; [| split; [assumption | econstructor; eassumption]].
    destruct Hm as [N1 HN1], Hd as [N2 HN2], Hn as [N3 HN3].
    exists (S (N1 + N2 + N3 + N4)). intros gas n Hg Hfu.
    destruct gas as [| g]; [lia |]. cbn [to_vector_loop].
    fuel_steps. rewrite HL by lia. rewrite <- app_assoc. reflexivity.
Qed.

Lemma to_vector_enumerates (e : E) l :
  enumerates e l ->
  exists e', to_vector e ==> (l, e') /\ has_more e' ==> false
             /\ advanced (length l) e e'.
Proof.
  intros He. destruct (to_vector_loop_enumerates He []) as (e' & HL & Hx & Ha).
  exists e'. split; [| split; assumption].
  apply (loop_returns_diag HL).
Qed.
End SinkFacts.

(** ** The source cursor enumerates its range *)

Lemma skipn_nth_error {T} (d : list T) b x :
  nth_error d b = Some x -> skipn b d = x :: skipn (S b) d.
Proof.
  revert d. induction b as [| b IH]; intros [| y d] Hx; try discriminate.
  - injection Hx as ->. reflexivity.
  - cbn in Hx. cbn [skipn]. rewrite (IH d Hx). reflexivity.
Qed.

Lemma range_enumerates_len {T} k : forall r : range_enumerator T,
  wf_range r -> end_ r - begin_ r = k -> enumerates r (range_elems r).
Proof.
  induction k as [| k IH]; intros r [Hbe Hel] Hk.
  - unfold range_elems. rewrite Hk. cbn [firstn]. apply enumerates_nil.
    cbn. unfold range_has_more.
    replace (begin_ r =? end_ r) with true
      by (symmetry; apply Nat.eqb_eq; lia).
    apply returns_ret.
  - destruct (nth_error (data r) (begin_ r)) as [x |] eqn:Hx.
    2: { apply nth_error_None in Hx. lia. }
    unfold range_elems. rewrite Hk, (skipn_nth_error _ _ Hx). cbn [firstn].
    set (r' := {| data := data r; begin_ := S (begin_ r); end_ := end_ r |}).
    assert (Hr' : enumerates r' (range_elems r')).
    { apply IH; unfold wf_range; cbn; lia. }
    unfold range_elems in Hr'. cbn in Hr'.
    replace (end_ r - S (begin_ r)) with k in Hr' by lia.
    apply enumerates_cons with (e' := r').
    + cbn. unfold range_has_more.
      replace (begin_ r =? end_ r) with false
        by (symmetry; apply Nat.eqb_neq; lia).
      apply returns_ret.
    + cbn. unfold range_deref. rewrite Hx. apply returns_ret.
    + cbn. unfold range_next.
      replace (begin_ r <? length (data r)) with true
        by (symmetry; apply Nat.ltb_lt; lia).
      apply returns_ret.
    + exact Hr'.
Qed.

Lemma range_enumerates {T} (r : range_enumerator T) :
  wf_range r -> enumerates r (range_elems r).
Proof. intros Hwf. eapply range_enumerates_len; [exact Hwf | reflexivity]. Qed.

Lemma wf_from_all {T} (d : list T) : wf_range (from_all d).
Proof. unfold wf_range, from_all, from. cbn. lia. Qed.

Lemma range_elems_from_all {T} (d : list T) : range_elems (from_all d) = d.
Proof.
  unfold range_elems, from_all, from. cbn. rewrite Nat.sub_0_r.
  apply firstn_all.
Qed.

Lemma from_all_enumerates {T} (d : list T) : enumerates (from_all d) d.
Proof.
  rewrite <- (range_elems_from_all d) at 2.
  apply range_enumerates, wf_from_all.
Qed.

(** ** [where_enumerator] *)
Section WhereFacts.
Context {E T : Type} `{enumerator E T}.
Variable P : T -> bool.

Lemma where_while_invariant gas : forall (w w' : where_enumerator E T) n,
  where_while gas w n = Ret w' ->
  where_invariant w' n /\ where_predicate_ w' = where_predicate_ w.
Proof.
  induction gas as [| g IH]; intros w w' n Hr; [discriminate |].
  cbn [where_while] in Hr. unfold bind, where_has_more in Hr.
  destruct (has_more (where_parent_ w) n) as [[|] | |] eqn:Hm;
    try discriminate.
  - destruct (deref (where_parent_ w) n) as [x | |] eqn:Hd; try discriminate.
    destruct (where_predicate_ w x) eqn:Hp; cbn [negb] in Hr.
    + injection Hr as <-. split; [| reflexivity].
      intros _. exists x. split; assumption.
    + destruct (next (where_parent_ w) n) as [p' | |]; try discriminate.
      apply IH in Hr. exact Hr.
  - injection Hr as <-. split; [| reflexivity].
    intros Hm'. rewrite Hm in Hm'. discriminate.
Qed.

Lemma where_next_invariant (w w' : where_enumerator E T) n :
  where_next w n = Ret w' ->
  where_invariant w' n /\ where_predicate_ w' = where_predicate_ w.
Proof.
  unfold where_next, bind. intros Hr.
  destruct (next (where_parent_ w) n) as [p' | |]; try discriminate.
  apply where_while_invariant in Hr. exact Hr.
Qed.

Lemma where_constructor_invariant (p : E) (w : where_enumerator E T) n :
  where_ p P n = Ret w ->
  where_invariant w n /\ where_predicate_ w = P.
Proof.
  unfold where_, bind. intros Hr.
  destruct (has_more p n) as [[|] | |] eqn:Hm; try discriminate.
  - destruct (deref p n) as [x | |] eqn:Hd; try discriminate.
    destruct (P x) eqn:Hp; cbn [negb] in Hr.
    + injection Hr as <-. split; [| reflexivity].
      intros _. exists x. split; assumption.
    + apply where_next_invariant in Hr. exact Hr.
  - injection Hr as <-. split; [| reflexivity].
    intros Hm'. cbn in Hm'. rewrite Hm in Hm'. discriminate.
Qed.

(** Over a well-behaved parent the loop of [operator++] stops, on a
    cursor over the elements that satisfy [P]. *)
Lemma where_while_enumerates (p : E) l :
  enumerates p l ->
  exists p', loop_returns (fun gas => where_while gas (where_init p P)) (where_init p' P)
             /\ enumerates (where_init p' P) (filter P l).
Proof.
  induction 1 as [e Hm | e e1 x l Hm Hd Hn He IH].
  - exists e. split.
    + destruct Hm as [N HN]. exists (S N). intros gas n Hg Hfu.
      destruct gas as [| g]; [lia |]. cbn [where_while].
      unfold where_has_more. cbn. fuel_steps. reflexivity.
    + apply enumerates_nil. exact Hm.
  - destruct IH as (e2 & HL & He2).
    assert (Hnext : next (where_init e P) ==> where_init e2 P).
    { cbn. unfold where_next. cbn.
      eapply returns_bind; [exact Hn |].
      exact (loop_returns_diag HL). }
    cbn [filter]. destruct (P x) eqn:Hp.
    + exists e. split.
      * destruct Hm as [N1 HN1], Hd as [N2 HN2].
        exists (S (N1 + N2)). intros gas n Hg Hfu.
        destruct gas as [| g]; [lia |]. cbn [where_while].
        unfold where_has_more. cbn. fuel_steps. rewrite Hp. reflexivity.
      * eapply enumerates_cons; eassumption.
    + exists e2. split; [| exact He2].
      destruct Hm as [N1 HN1], Hd as [N2 HN2], Hn as [N3 HN3],
        HL as [N4 HN4].
      exists (S (N1 + N2 + N3 + N4)). intros gas n Hg Hfu.
      destruct gas as [| g]; [lia |]. cbn [where_while].
      unfold where_has_more. cbn. fuel_steps. rewrite Hp. cbn [negb].
      fuel_steps. apply HN4; lia.
Qed.

Lemma where_next_enumerates (p : E) x l :
  enumerates p (x :: l) ->
  exists w', where_next (where_init p P) ==> w' /\ enumerates w' (filter P l).
Proof.
  intros He. inversion He as [| e e1 y l' Hm Hd Hn He1]; subst.
  destruct (where_while_enumerates He1) as (p' & HL & Hp').
  exists (where_init p' P). split; [| exact Hp'].
  unfold where_next. eapply returns_bind; [exact Hn |].
  exact (loop_returns_diag HL).
Qed.

Lemma where_enumerates (p : E) l :
  enumerates p l ->
  exists w, where_ p P ==> w /\ enumerates w (filter P l).
Proof.
  intros He. destruct l as [| x l].
  - exists (where_init p P). inversion He; subst. split.
    + unfold where_. eapply returns_bind; [eassumption | apply returns_ret].
    + apply enumerates_nil. assumption.
  - destruct (where_next_enumerates He) as (w' & Hw' & Hew').
    inversion He as [| e e1 y l' Hm Hd Hn He1]; subst.
    cbn [filter]. destruct (P x) eqn:Hp.
    + exists (where_init p P). split.
      * unfold where_. eapply returns_bind; [exact Hm |].
        eapply returns_bind; [exact Hd |]. rewrite Hp. apply returns_ret.
      * eapply enumerates_cons; eassumption.
    + exists w'. split; [| exact Hew'].
      unfold where_. eapply returns_bind; [exact Hm |].
      eapply returns_bind; [exact Hd |]. rewrite Hp. exact Hw'.
Qed.
End WhereFacts.

(** ** Repeated advances, and the counting parent *)
Section AdvanceFacts.
Context {E T : Type} `{enumerator E T}.

Lemma advance_n_enumerates k : forall (p : E) l,
  enumerates p l -> k <= length l ->
  exists p', advance_n k p ==> p' /\ enumerates p' (skipn k l)
             /\ advanced k p p'.
Proof.
  induction k as [| k IH]; intros p l He Hk.
  - exists p. repeat split; [apply returns_ret | exact He | constructor].
  - destruct He as [e Hm | e e1 x l Hm Hd Hn He]; [cbn in Hk; lia |].
    cbn in Hk. destruct (IH e1 l He) as (p' & Hp' & Hep' & Hadv); [lia |].
    exists p'. repeat split.
    + cbn [advance_n]. eapply returns_bind; eassumption.
    + exact Hep'.
    + econstructor; eassumption.
Qed.

Lemma counting_enumerates (p : E) l :
  enumerates p l -> forall c, enumerates {| inner := p; calls := c |} l.
Proof.
  induction 1 as [e Hm | e e1 x l Hm Hd Hn He IH]; intros c.
  - apply enumerates_nil. exact Hm.
  - apply enumerates_cons with (e' := {| inner := e1; calls := S c |}).
    + exact Hm.
    + exact Hd.
    + cbn. unfold counting_next. cbn.
      eapply returns_bind; [exact Hn | apply returns_ret].
    + apply IH.
Qed.

Lemma counting_enumerates_inner (pc : counting E) l :
  enumerates pc l -> enumerates (inner pc) l.
Proof.
  induction 1 as [e Hm | e e1 x l Hm Hd Hn He IH].
  - apply enumerates_nil. exact Hm.
  - apply enumerates_cons with (e' := inner e1); try assumption.
    destruct Hn as [N HN]. exists N. intros m Hm'.
    specialize (HN m Hm'). cbn in HN. unfold counting_next, bind in HN.
    destruct (next (inner e) m); try discriminate.
    injection HN as <-. reflexivity.
Qed.

Lemma counting_advance_n k : forall (p : E) c n,
  advance_n k {| inner := p; calls := c |} n
  = outcome_map (fun p' => {| inner := p'; calls := c + k |})
      (advance_n k p n).
Proof.
  induction k as [| k IH]; intros p c n.
  - cbn. unfold ret. rewrite Nat.add_0_r. reflexivity.
  - cbn [advance_n]. cbn. unfold counting_next, bind. cbn.
    destruct (next p n) as [p1 | |]; try reflexivity.
    unfold ret. rewrite IH. rewrite <- plus_n_Sm. reflexivity.
Qed.
End AdvanceFacts.

(** ** [drop_enumerator] *)
Section DropFacts.
Context {E T : Type} `{enumerator E T}.

(** The constructor's [for] loop is [count - i] advances of the parent,
    none when [count <= i], whatever the parent answers to
    [operator bool]. *)
Lemma drop_for_advance_n gas : forall i count (p : E) n,
  (count - i <= Z.of_nat gas)%Z ->
  drop_for gas i count p n = advance_n (Z.to_nat (count - i)) p n.
Proof.
  induction gas as [| g IH]; intros i count p n Hg.
  - cbn [drop_for]. destruct (i <? count)%Z eqn:Hi; [lia |].
    replace (Z.to_nat (count - i)) with 0 by lia. reflexivity.
  - cbn [drop_for]. destruct (i <? count)%Z eqn:Hi.
    + replace (Z.to_nat (count - i)) with (S (Z.to_nat (count - (i + 1))))
        by lia.
      cbn [advance_n]. unfold bind. destruct (next p n); try reflexivity.
      apply IH. lia.
    + replace (Z.to_nat (count - i)) with 0 by lia. reflexivity.
Qed.

Lemma drop_advance_n (p : E) count n :
  drop p count n
  = (p' <- advance_n (Z.to_nat count) p ;; ret {| drop_parent_ := p' |}) n.
Proof.
  unfold drop, bind. rewrite drop_for_advance_n by lia.
  rewrite Z.sub_0_r. reflexivity.
Qed.

Lemma drop_state_enumerates (p : E) l :
  enumerates p l -> enumerates {| drop_parent_ := p |} l.
Proof.
  induction 1 as [e Hm | e e1 x l Hm Hd Hn He IH].
  - apply enumerates_nil. exact Hm.
  - apply enumerates_cons with (e' := {| drop_parent_ := e1 |}).
    + exact Hm.
    + exact Hd.
    + cbn. unfold drop_next. cbn.
      eapply returns_bind; [exact Hn | apply returns_ret].
    + exact IH.
Qed.

End DropFacts.

Section DropWithin.
Context {E T : Type} `{enumerator E T}.

(** Within the range, [drop] does what is expected of it: [k] advances,
    and what is left is the range without its first [k] elements. *)
Lemma drop_within_range (p : E) l (k : Z) :
  enumerates p l -> (0 <= k <= Z.of_nat (length l))%Z ->
  exists p' e',
    drop (watch p) k
      ==> {| drop_parent_ := {| inner := p'; calls := Z.to_nat k |} |}
    /\ enumerates p' (skipn (Z.to_nat k) l)
    /\ (d <- drop p k ;; to_vector d) ==> (skipn (Z.to_nat k) l, e').
Proof.
  intros He Hk.
  destruct (advance_n_enumerates (k := Z.to_nat k) He) as (p' & Hp' & Hep' & _);
    [lia |].
  destruct (to_vector_enumerates (drop_state_enumerates Hep'))
    as (e' & Hv & _).
  exists p', e'. repeat split.
  - destruct Hp' as [N HN]. exists N. intros n Hn.
    rewrite drop_advance_n. unfold bind, watch.
    rewrite counting_advance_n, HN by lia. reflexivity.
  - exact Hep'.
  - eapply returns_bind; [| exact Hv].
    destruct Hp' as [N HN]. exists N. intros n Hn.
    rewrite drop_advance_n. unfold bind. rewrite HN by lia. reflexivity.
Qed.
End DropWithin.

(** ** [take_enumerator] *)

Lemma int_decr_above (k : Z) :
  (INT_MIN < k)%Z -> int_decr k = ret (k - 1)%Z.
Proof.
  intros Hk. unfold int_decr.
  destruct (INT_MIN <? k)%Z eqn:Hlt; [reflexivity | lia].
Qed.

Lemma INT_MIN_negative : (INT_MIN < 0)%Z.
Proof. reflexivity. Qed.

Section TakeFacts.
Context {E T : Type} `{enumerator E T}.

Lemma take_next_unfold (t : take_enumerator E) n :
  (INT_MIN < last_ t)%Z ->
  take_next t n
  = (if (0 <? last_ t - 1)%Z
     then p' <- next (take_parent_ t) ;;
          ret {| take_parent_ := p'; last_ := (last_ t - 1)%Z |}
     else ret {| take_parent_ := take_parent_ t;
                 last_ := (last_ t - 1)%Z |}) n.
Proof.
  intros Hk. unfold take_next. rewrite (int_decr_above Hk). reflexivity.
Qed.

Lemma take_exhausted_nil (p : E) (k : Z) :
  has_more p ==> false -> has_more (take p k) ==> false.
Proof.
  intros Hm. cbn. unfold take_has_more. cbn.
  eapply returns_bind; [exact Hm | apply returns_ret].
Qed.

(** With a count that is not positive the adapter is exhausted from the
    start, and draining it leaves it as it is. *)
Lemma take_exhausted (p : E) (k : Z) (b : bool) :
  (k <= 0)%Z -> has_more p ==> b ->
  has_more (take p k) ==> false
  /\ to_vector (take p k) ==> ([], take p k).
Proof.
  intros Hk [N HN].
  assert (Hf : forall n, N <= n -> has_more (take p k) n = Ret false).
  { intros n Hn. cbn. unfold take_has_more, bind. cbn. rewrite HN by lia.
    destruct b; [| reflexivity]. unfold ret. f_equal. apply Z.ltb_ge. lia. }
  split; [exists N; exact Hf |].
  exists (S N). intros n Hn. destruct n as [| n]; [lia |].
  unfold to_vector. cbn [to_vector_loop]. unfold bind.
  rewrite Hf by lia. reflexivity.
Qed.

Lemma take_enumerates (p : E) l :
  enumerates p l ->
  forall k, enumerates (take p k) (firstn (Z.to_nat k) l).
Proof.
  induction 1 as [e Hm | e e1 x l Hm Hd Hn He IH]; intros k.
  - rewrite firstn_nil. apply enumerates_nil.
    apply (take_exhausted_nil e k Hm).
  - destruct (Z_le_gt_dec k 0) as [Hk | Hk].
    + replace (Z.to_nat k) with 0 by lia. cbn [firstn].
      apply enumerates_nil. apply (take_exhausted e Hk Hm).
    + replace (Z.to_nat k) with (S (Z.to_nat (k - 1))) by lia.
      cbn [firstn].
      assert (Hpos : (0 <? k)%Z = true) by (apply Z.ltb_lt; lia).
      assert (Hmin : (INT_MIN < k)%Z) by (pose proof INT_MIN_negative; lia).
      destruct (0 <? k - 1)%Z eqn:Hk1.
      * apply enumerates_cons with (e' := take e1 (k - 1)).
        -- cbn. unfold take_has_more. cbn.
           eapply returns_bind; [exact Hm |]. rewrite Hpos.
           apply returns_ret.
        -- exact Hd.
        -- cbn. unfold take_next. cbn. rewrite (int_decr_above Hmin).
           eapply returns_bind; [apply returns_ret |]. rewrite Hk1.
           eapply returns_bind; [exact Hn | apply returns_ret].
        -- apply IH.
      * apply enumerates_cons with (e' := take e (k - 1)).
        -- cbn. unfold take_has_more. cbn.
           eapply returns_bind; [exact Hm |]. rewrite Hpos.
           apply returns_ret.
        -- exact Hd.
        -- cbn. unfold take_next. cbn. rewrite (int_decr_above Hmin).
           eapply returns_bind; [apply returns_ret |]. rewrite Hk1.
           apply returns_ret.
        -- replace (Z.to_nat (k - 1)) with 0 by lia. cbn [firstn].
           apply enumerates_nil.
           assert (Hle : (k - 1 <= 0)%Z) by lia.
           apply (take_exhausted e Hle Hm).
Qed.

(** Draining [take(k)] over a parent that has at least [k >= 1] elements:
    the parent is advanced [k - 1] times and is left on the [k]-th
    element. *)
Lemma take_drain m : forall (k : Z) (p : E) l acc,
  k = Z.of_nat (S m) ->
  enumerates p l -> S m <= length l ->
  exists p',
    loop_returns (fun gas => to_vector_loop gas (take p k) acc)
                 (acc ++ firstn (S m) l, take p' 0)
    /\ advanced m p p'
    /\ enumerates p' (skipn m l).
Proof.
  induction m as [| m IH]; intros k p l acc Hk He Hlen.
  - subst k. exists p. split; [| split; [constructor | exact He]].
    destruct He as [e Hm | e e1 x l Hm Hd Hn He]; [cbn in Hlen; lia |].
    destruct Hm as [N1 HN1], Hd as [N2 HN2].
    exists (S (S (N1 + N2))). intros gas n Hg Hfu.
    destruct gas as [| [| g]]; try lia.
    cbn [to_vector_loop]. cbn. unfold take_has_more, take_deref, take_next.
    cbn. fuel_steps. cbn. fuel_steps. reflexivity.
  - destruct He as [e Hm | e e1 x l Hm Hd Hn He]; [cbn in Hlen; lia |].
    cbn in Hlen.
    destruct (IH (k - 1)%Z e1 l (acc ++ [x])) as (p' & [N4 HL] & Hadv & Hep');
      [lia | exact He | lia |].
    exists p'. split; [| split; [econstructor; eassumption | exact Hep']].
    assert (Hpos : (0 <? k)%Z = true) by (apply Z.ltb_lt; lia).
    assert (Hmin : (INT_MIN < k)%Z) by (pose proof INT_MIN_negative; lia).
    assert (Hk1 : (0 <? k - 1)%Z = true) by (apply Z.ltb_lt; lia).
    destruct Hm as [N1 HN1], Hd as [N2 HN2], Hn as [N3 HN3].
    exists (S (N1 + N2 + N3 + N4)). intros gas n Hg Hfu.
    destruct gas as [| g]; [lia |].
    cbn [to_vector_loop]. cbn [has_more deref next take_is_enumerator].
    unfold take_has_more, take_deref, take_next.
    cbn [take take_parent_ last_]. rewrite (int_decr_above Hmin).
    fuel_steps. rewrite Hpos. unfold ret at 1 2. rewrite Hk1.
    fuel_steps. unfold ret at 1.
    change {| take_parent_ := e1; last_ := (k - 1)%Z |}
      with (take e1 (k - 1)).
    rewrite HL by lia. rewrite <- app_assoc. reflexivity.
Qed.
End TakeFacts.

Lemma advanced_counting {E T} `{enumerator E T} k :
  forall c c' : counting E, advanced k c c' -> calls c' = calls c + k.
Proof.
  induction k as [| k IH]; intros c c' Ha; inversion Ha; subst.
  - lia.
  - match goal with
    | Hn : next c ==> ?e1, Hr : advanced k ?e1 c' |- _ =>
        apply IH in Hr; apply returns_at in Hn; destruct Hn as [n Hn];
        cbn in Hn; unfold counting_next, bind in Hn;
        destruct (next (inner c) n); try discriminate;
        injection Hn as <-; cbn in Hr; lia
    end.
Qed.

(** ** [until_enumerator] *)

Lemma prefix_until_spec {T} (P : T -> bool) (l : list T) :
  exists rest,
    l = prefix_until P l ++ rest
    /\ (forall x, In x (prefix_until P l) -> P x = false)
    /\ match rest with [] => True | y :: _ => P y = true end.
Proof.
  induction l as [| x l (rest & Heq & Hall & Hrest)].
  - exists []. repeat split. intros x [].
  - cbn [prefix_until]. destruct (P x) eqn:Hp.
    + exists (x :: l). repeat split; [intros y [] | exact Hp].
    + exists rest. repeat split.
      * cbn. f_equal. exact Heq.
      * intros y [<- | Hy]; [exact Hp | apply Hall, Hy].
      * exact Hrest.
Qed.

Lemma prefix_until_all {T} (P : T -> bool) (l : list T) :
  (forall x, In x l -> P x = false) -> prefix_until P l = l.
Proof.
  induction l as [| x l IH]; intros Hall; [reflexivity |].
  cbn [prefix_until]. rewrite (Hall x (or_introl eq_refl)).
  f_equal. apply IH. intros y Hy. apply Hall. right. exact Hy.
Qed.

Section UntilFacts.
Context {E T : Type} `{enumerator E T}.
Variable P : T -> bool.

Lemma until_enumerates (p : E) l :
  enumerates p l -> enumerates (until p P) (prefix_until P l).
Proof.
  induction 1 as [e Hm | e e1 x l Hm Hd Hn He IH].
  - apply enumerates_nil. cbn. unfold until_has_more. cbn.
    eapply returns_bind; [exact Hm | apply returns_ret].
  - assert (Hhm : has_more (until e P) ==> negb (P x)).
    { cbn. unfold until_has_more. cbn.
      eapply returns_bind; [exact Hm |].
      eapply returns_bind; [exact Hd | apply returns_ret]. }
    cbn [prefix_until]. destruct (P x) eqn:Hp.
    + apply enumerates_nil. exact Hhm.
    + apply enumerates_cons with (e' := until e1 P).
      * exact Hhm.
      * exact Hd.
      * cbn. unfold until_next.
        eapply returns_bind; [exact Hhm |]. cbn.
        eapply returns_bind; [exact Hn | apply returns_ret].
      * exact IH.
Qed.

(** Once [operator bool] has answered [false], [operator++] returns the
    adapter as it is, parent included. *)
Lemma until_stopped (u : until_enumerator E T) n k :
  has_more u n = Ret false -> advance_n k u n = Ret u.
Proof.
  intros Hm. induction k as [| k IH]; [reflexivity |].
  cbn [advance_n]. unfold bind at 1. cbn [next until_is_enumerator].
  unfold until_next, bind. cbn in Hm. rewrite Hm. cbn. exact IH.
Qed.
End UntilFacts.

(** ** [select_enumerator] *)
Section SelectFacts.
Context {E T U : Type} `{enumerator E T}.
Variable f : T -> U.

Lemma to_vector_loop_select gas : forall (p : E) acc n,
  to_vector_loop gas (select p f) (map f acc) n
  = outcome_map (select_result f) (to_vector_loop gas p acc n).
Proof.
  induction gas as [| g IH]; intros p acc n; [reflexivity |].
  cbn [to_vector_loop]. cbn [has_more deref next select_is_enumerator].
  unfold select_has_more, select_deref, select_next, bind.
  cbn [select select_parent_ func_].
  destruct (has_more p n) as [[|] | |]; try reflexivity.
  destruct (deref p n) as [x | |]; try reflexivity.
  destruct (next p n) as [p' | |]; try reflexivity.
  unfold ret. specialize (IH p' (acc ++ [x]) n).
  rewrite map_app in IH. exact IH.
Qed.

Lemma to_vector_select (p : E) n :
  to_vector (select p f) n = outcome_map (select_result f) (to_vector p n).
Proof. unfold to_vector. apply (to_vector_loop_select n p [] n). Qed.
End SelectFacts.

(** ** The two sinks *)

Lemma written_nil {T} (it : out_iter T) : written it [] = it.
Proof.
  destruct it as [s c]. unfold written. cbn.
  rewrite !Nat.add_0_r, firstn_skipn. reflexivity.
Qed.

Lemma written_cons {T} (it : out_iter T) x v :
  cursor it < length (storage it) ->
  written
    (out_incr
       {| storage := firstn (cursor it) (storage it) ++ x
                       :: skipn (S (cursor it)) (storage it);
          cursor := cursor it |}) v
  = written it (x :: v).
Proof.
  destruct it as [s c]. cbn [cursor storage]. intros Hc.
  unfold written, out_incr. cbn [cursor storage length].
  assert (Hlen : length (firstn c s) = c) by (rewrite length_firstn; lia).
  f_equal; [| lia].
  rewrite firstn_app, skipn_app, Hlen.
  replace (S c - c) with 1 by lia.
  replace (S c + length v - c) with (S (length v)) by lia.
  rewrite (firstn_all2 (n := S c)) by lia.
  rewrite (skipn_all2 (n := S c + length v)) by lia.
  remember (skipn (S c) s) as r eqn:Hr.
  cbn [firstn skipn app]. subst r. rewrite skipn_skipn, <- app_assoc.
  cbn [app].
  replace (length v + S c) with (c + S (length v)) by lia.
  reflexivity.
Qed.

Section SinkAgreement.
Context {E T : Type} `{enumerator E T}.

(** Whatever the enumerator, a run of [to_vector] that returns is matched
    step for step by [copy_to] on an iterator with room for the result. *)
Lemma copy_to_loop_simulates gas : forall (e e' : E) acc v it n,
  to_vector_loop gas e acc n = Ret (v, e') ->
  exists suffix,
    v = acc ++ suffix
    /\ has_more e' n = Ret false
    /\ (cursor it + length suffix <= length (storage it) ->
        copy_to_loop gas e it n = Ret (e', written it suffix)).
Proof.
  induction gas as [| g IH]; intros e e' acc v it n Hr; [discriminate |].
  cbn [to_vector_loop copy_to_loop] in *. unfold bind in *.
  destruct (has_more e n) as [[|] | |] eqn:Hm; try discriminate.
  - destruct (deref e n) as [x | |] eqn:Hd; try discriminate.
    destruct (next e n) as [e1 | |] eqn:Hn; try discriminate.
    destruct (IH e1 e' (acc ++ [x]) v
                (out_incr
                   {| storage := firstn (cursor it) (storage it) ++ x
                                   :: skipn (S (cursor it)) (storage it);
                      cursor := cursor it |}) n Hr)
      as (suffix & Hv & Hex & Hcopy).
    exists (x :: suffix). split; [| split].
    + rewrite Hv, <- app_assoc. reflexivity.
    + exact Hex.
    + cbn [length]. intros Hroom. unfold store.
      destruct (cursor it <? length (storage it)) eqn:Hc.
      2: { apply Nat.ltb_ge in Hc. lia. }
      apply Nat.ltb_lt in Hc. unfold ret.
      rewrite Hcopy.
      * rewrite (written_cons it x suffix Hc). reflexivity.
      * unfold out_incr. cbn [cursor storage].
        rewrite length_app, length_firstn. cbn [length].
        rewrite length_skipn. lia.
  - injection Hr as <- <-. exists []. split; [| split].
    + rewrite app_nil_r. reflexivity.
    + exact Hm.
    + intros _. rewrite written_nil. reflexivity.
Qed.

(** Over a well-behaved enumerator [copy_to] returns, having written what
    [to_vector] returns. *)
Lemma copy_to_enumerates (e : E) l (it : out_iter T) :
  enumerates e l ->
  cursor it + length l <= length (storage it) ->
  exists e', to_vector e ==> (l, e') /\ copy_to e it ==> (e', written it l).
Proof.
  intros He Hroom. destruct (to_vector_enumerates He) as (e' & Hv & _).
  exists e'. split; [exact Hv |].
  destruct Hv as [N HN]. exists N. intros n Hn. specialize (HN n Hn).
  unfold to_vector in HN.
  destruct (copy_to_loop_simulates n e [] it n HN) as (suffix & Hs & _ & Hc).
  cbn [app] in Hs. subst suffix. exact (Hc Hroom).
Qed.

(** On an exhausted enumerator both sinks return at once and change
    nothing. *)
Lemma sinks_on_exhausted (e : E) n :
  has_more e (S n) = Ret false ->
  to_vector e (S n) = Ret ([], e)
  /\ forall it, copy_to e it (S n) = Ret (e, it).
Proof.
  intros Hm. unfold to_vector, copy_to. cbn [to_vector_loop copy_to_loop].
  unfold bind. rewrite Hm. split; [reflexivity | intros it; reflexivity].
Qed.
End SinkAgreement.

(** * The claims *)

Lemma filter_none {T} (P : T -> bool) (l : list T) :
  (forall x, In x l -> P x = false) -> filter P l = [].
Proof.
  induction l as [| x l IH]; intros Hall; [reflexivity |].
  cbn [filter]. rewrite (Hall x (or_introl eq_refl)).
  apply IH. intros y Hy. apply Hall. right. exact Hy.
Qed.

(** C1: for every range [r] and predicate [P], building the [where] adapter
    over [r] and draining it with [to_vector] returns exactly the elements
    of [r] that satisfy [P], in their order (so no matching element is
    skipped and the traversal does not stop early), and leaves the adapter
    exhausted; when [P] is false on every element the result is the empty
    vector, reached without a fault. *)
Theorem where_to_vector_filter {T} (r : range_enumerator T) (P : T -> bool) :
  wf_range r ->
  exists e',
    (w <- where_ r P ;; to_vector w) ==> (filter P (range_elems r), e')
    /\ has_more e' ==> false
    /\ ((forall x, In x (range_elems r) -> P x = false) ->
        (w <- where_ r P ;; to_vector w) ==> ([], e')).
Proof.
  intros Hwf.
  destruct (where_enumerates P (range_enumerates Hwf)) as (w & Hw & Hew).
  destruct (to_vector_enumerates Hew) as (e' & Hv & Hx & _).
  assert (Hrun : (w <- where_ r P ;; to_vector w)
                   ==> (filter P (range_elems r), e')).
  { eapply returns_bind; eassumption. }
  exists e'. split; [exact Hrun | split; [exact Hx |]].
  intros Hall. rewrite <- (filter_none P _ Hall). exact Hrun.
Qed.

Lemma where_to_vector_filter_witness :
  wf_range (from_all [1; 2; 3; 4; 6; 7]%Z)
  /\ exists e',
       (w <- where_ (from_all [1; 2; 3; 4; 6; 7]%Z) is_even ;; to_vector w)
         ==> (filter is_even (range_elems (from_all [1; 2; 3; 4; 6; 7]%Z)), e')
       /\ has_more e' ==> false
       /\ ((forall x, In x (range_elems (from_all [1; 2; 3; 4; 6; 7]%Z)) ->
                      is_even x = false) ->
           (w <- where_ (from_all [1; 2; 3; 4; 6; 7]%Z) is_even ;; to_vector w)
             ==> ([], e')).
Proof.
  split.
  - unfold wf_range. cbn. lia.
  - apply (where_to_vector_filter (r := from_all [1; 2; 3; 4; 6; 7]%Z) is_even).
    unfold wf_range. cbn. lia.
Defined.

(** C2: in every state a [where] adapter goes through, the one its
    constructor returns and every one its [operator++] returns, the
    invariant holds: if the parent has more, the parent's current element
    satisfies the predicate.  So [operator bool], which only forwards to
    the parent, agrees with the next read: when it answers [true],
    [operator*] returns an element that satisfies the predicate. *)
Theorem where_invariant_reachable {E T} `{enumerator E T}
    (P : T -> bool) (p0 : E) (n : nat) (w : where_enumerator E T) :
  where_reachable P p0 n w ->
  where_invariant w n
  /\ where_predicate_ w = P
  /\ has_more w n = has_more (where_parent_ w) n
  /\ (has_more w n = Ret true ->
      exists x, deref w n = Ret x /\ P x = true).
Proof.
  intros Hreach.
  assert (Hinv : where_invariant w n /\ where_predicate_ w = P).
  { induction Hreach as [w Hc | w w' _ [_ IHp] Hn].
    - apply (where_constructor_invariant _ _ _ Hc).
    - destruct (where_next_invariant _ _ Hn) as [Hi Hp].
      split; [exact Hi | congruence]. }
  destruct Hinv as [Hinv Hp].
  split; [exact Hinv | split; [exact Hp | split; [reflexivity |]]].
  intros Hm. destruct (Hinv Hm) as (x & Hx & Hpx).
  exists x. split; [exact Hx | rewrite <- Hp; exact Hpx].
Qed.

Lemma where_invariant_reachable_witness :
  where_reachable is_even (from_all [1; 2; 3; 4]%Z) 5
    (where_init (from [1; 2; 3; 4]%Z 3 4) is_even)
  /\ (where_invariant (where_init (from [1; 2; 3; 4]%Z 3 4) is_even) 5
      /\ where_predicate_ (where_init (from [1; 2; 3; 4]%Z 3 4) is_even)
         = is_even
      /\ has_more (where_init (from [1; 2; 3; 4]%Z 3 4) is_even) 5
         = has_more (where_parent_
                       (where_init (from [1; 2; 3; 4]%Z 3 4) is_even)) 5
      /\ (has_more (where_init (from [1; 2; 3; 4]%Z 3 4) is_even) 5 = Ret true ->
          exists x, deref (where_init (from [1; 2; 3; 4]%Z 3 4) is_even) 5
                    = Ret x /\ is_even x = true)).
Proof.
  assert (Hreach : where_reachable is_even (from_all [1; 2; 3; 4]%Z) 5
                     (where_init (from [1; 2; 3; 4]%Z 3 4) is_even)).
  { apply reach_advanced with (w := where_init (from [1; 2; 3; 4]%Z 1 4) is_even).
    - apply reach_constructed. reflexivity.
    - reflexivity. }
  split.
  - exact Hreach.
  - apply (where_invariant_reachable Hreach).
Defined.

(** C3, at inputs where the code departs from it.  The range is the
    one-element sub-range [[7]] of the storage [[7; 8; 9]].  The constructor
    of [drop(2)] advances the parent twice, not [min 2 1 = 1] times; the
    parent's [begin_] is then past [end_], so [operator bool] answers
    [true], and draining the adapter reads on beyond the range until it
    leaves the storage.  Over the whole one-element container [[7]] the
    second advance of the constructor already moves the iterator beyond the
    end of the storage. *)
Theorem drop_past_the_end (n : nat) :
  range_elems (from [7; 8; 9]%Z 0 1) = [7%Z]
  /\ (d <- drop (watch (from [7; 8; 9]%Z 0 1)) 2 ;;
      ret (calls (drop_parent_ d))) n = Ret 2
  /\ drop (from [7; 8; 9]%Z 0 1) 2 n
     = Ret {| drop_parent_ := from [7; 8; 9]%Z 2 1 |}
  /\ (d <- drop (from [7; 8; 9]%Z 0 1) 2 ;; has_more d) n = Ret true
  /\ (d <- drop (from [7; 8; 9]%Z 0 1) 2 ;; to_vector d) (S (S n)) = Fault
  /\ drop (from_all [7%Z]) 2 n = Fault.
Proof.
  split; [reflexivity |].
  split; [reflexivity |].
  split; [reflexivity |].
  split; [reflexivity |].
  split; reflexivity.
Qed.

(** C4: for every range [r] and count [k >= 0], draining [take(k)] over [r]
    returns the first [min k |r|] elements of [r] in order, a vector of that
    length; and over a range in any state [r0], [take(0)] is exhausted from
    the start and drains to the empty vector. *)
Theorem take_to_vector_firstn {T} (r r0 : range_enumerator T) (k : Z) :
  wf_range r -> (0 <= k)%Z ->
  (exists e',
      to_vector (take r k) ==> (firstn (Z.to_nat k) (range_elems r), e')
      /\ has_more e' ==> false)
  /\ length (firstn (Z.to_nat k) (range_elems r))
     = Nat.min (Z.to_nat k) (length (range_elems r))
  /\ has_more (take r0 0) ==> false
  /\ to_vector (take r0 0) ==> ([], take r0 0).
Proof.
  intros Hwf Hk.
  destruct (to_vector_enumerates (take_enumerates (range_enumerates Hwf) k))
    as (e' & Hv & Hx & _).
  split; [exists e'; split; assumption |].
  split; [apply length_firstn |].
  apply (take_exhausted r0 (k := 0) (b := negb (begin_ r0 =? end_ r0)));
    [lia | apply returns_ret].
Qed.

Lemma take_to_vector_firstn_witness :
  wf_range (from_all [5; 6; 7]%Z) /\ (0 <= 2)%Z
  /\ ((exists e',
          to_vector (take (from_all [5; 6; 7]%Z) 2)
            ==> (firstn (Z.to_nat 2) (range_elems (from_all [5; 6; 7]%Z)), e')
          /\ has_more e' ==> false)
      /\ length (firstn (Z.to_nat 2) (range_elems (from_all [5; 6; 7]%Z)))
         = Nat.min (Z.to_nat 2) (length (range_elems (from_all [5; 6; 7]%Z)))
      /\ has_more (take (from [5; 6; 7]%Z 1 3) 0) ==> false
      /\ to_vector (take (from [5; 6; 7]%Z 1 3) 0)
           ==> ([], take (from [5; 6; 7]%Z 1 3) 0)).
Proof.
  split; [unfold wf_range; cbn; lia |].
  split; [lia |].
  apply (take_to_vector_firstn (r := from_all [5; 6; 7]%Z)
           (from [5; 6; 7]%Z 1 3) (k := 2)).
  - unfold wf_range. cbn. lia.
  - lia.
Defined.

(** C5: [operator++] of [take] decrements [last_] and advances the parent
    only if [last_] is still positive afterwards.  Hence, over a parent with
    at least [k >= 1] elements, draining [take(k)] returns the first [k]
    elements and advances the parent exactly [k - 1] times: the parent is
    left on the [k]-th element, and the element after it is never pulled. *)
Theorem take_advances_parent {E T} `{enumerator E T}
    (t : take_enumerator E) (n : nat) (p : E) (l : list T) (k : Z) :
  (INT_MIN < last_ t)%Z ->
  enumerates p l -> (1 <= k)%Z -> (k <= Z.of_nat (length l))%Z ->
  take_next t n
  = (if (0 <? last_ t - 1)%Z
     then p' <- next (take_parent_ t) ;;
          ret {| take_parent_ := p'; last_ := (last_ t - 1)%Z |}
     else ret {| take_parent_ := take_parent_ t;
                 last_ := (last_ t - 1)%Z |}) n
  /\ exists p',
       to_vector (take (watch p) k)
         ==> (firstn (Z.to_nat k) l,
              take {| inner := p'; calls := Z.to_nat (k - 1) |} 0)
       /\ enumerates p' (skipn (Z.to_nat (k - 1)) l).
Proof.
  intros Hmin He Hk1 Hkl. split; [apply take_next_unfold; exact Hmin |].
  assert (Hk : k = Z.of_nat (S (Z.to_nat (k - 1)))) by lia.
  assert (Hlen : S (Z.to_nat (k - 1)) <= length l) by lia.
  destruct (take_drain (p := watch p) [] Hk (counting_enumerates He 0) Hlen)
    as (c' & HL & Hadv & Hec').
  apply advanced_counting in Hadv. cbn [watch calls plus] in Hadv.
  apply counting_enumerates_inner in Hec'.
  destruct c' as [p' c]. cbn [calls inner] in Hadv, Hec'. subst c.
  exists p'. split; [| exact Hec'].
  replace (Z.to_nat k) with (S (Z.to_nat (k - 1))) by lia.
  exact (loop_returns_diag HL).
Qed.

Lemma take_advances_parent_witness :
  (INT_MIN < last_ (take (from_all [1; 2; 3; 4]%Z) 3))%Z
  /\ enumerates (from_all [1; 2; 3; 4]%Z) [1; 2; 3; 4]%Z
  /\ (1 <= 3)%Z /\ (3 <= Z.of_nat (length [1; 2; 3; 4]%Z))%Z
  /\ (take_next (take (from_all [1; 2; 3; 4]%Z) 3) 1
      = (if (0 <? last_ (take (from_all [1; 2; 3; 4]%Z) 3) - 1)%Z
         then p' <- next (take_parent_ (take (from_all [1; 2; 3; 4]%Z) 3)) ;;
              ret {| take_parent_ := p';
                     last_ := (last_ (take (from_all [1; 2; 3; 4]%Z) 3) - 1)%Z |}
         else ret {| take_parent_ :=
                       take_parent_ (take (from_all [1; 2; 3; 4]%Z) 3);
                     last_ := (last_ (take (from_all [1; 2; 3; 4]%Z) 3) - 1)%Z |})
          1
      /\ exists p',
           to_vector (take (watch (from_all [1; 2; 3; 4]%Z)) 3)
             ==> (firstn (Z.to_nat 3) [1; 2; 3; 4]%Z,
                  take {| inner := p'; calls := Z.to_nat (3 - 1) |} 0)
           /\ enumerates p' (skipn (Z.to_nat (3 - 1)) [1; 2; 3; 4]%Z)).
Proof.
  split; [reflexivity |].
  split; [apply from_all_enumerates |].
  split; [lia |].
  split; [cbn; lia |].
  apply (@take_advances_parent _ _ _ (take (from_all [1; 2; 3; 4]%Z) 3) 1
           (from_all [1; 2; 3; 4]%Z) [1; 2; 3; 4]%Z 3).
  - reflexivity.
  - apply from_all_enumerates.
  - lia.
  - cbn. lia.
Defined.

(** C6: for every range [r] and predicate [P], draining [until(P)] over [r]
    returns the longest prefix [v] of [r] with no element satisfying [P]:
    [r] is [v] followed by [rest], [P] is false on all of [v], and [rest] is
    empty or starts with an element satisfying [P], which is not part of
    [v].  So [v] is empty when [P] holds for the first element of [r], and
    [v] is all of [r] when [P] holds for none. *)
Theorem until_to_vector_prefix {T} (r : range_enumerator T) (P : T -> bool) :
  wf_range r ->
  exists v rest e',
    to_vector (until r P) ==> (v, e')
    /\ has_more e' ==> false
    /\ v = prefix_until P (range_elems r)
    /\ range_elems r = v ++ rest
    /\ (forall x, In x v -> P x = false)
    /\ match rest with [] => True | y :: _ => P y = true end
    /\ (forall x l', range_elems r = x :: l' -> P x = true -> v = [])
    /\ ((forall x, In x (range_elems r) -> P x = false) -> v = range_elems r).
Proof.
  intros Hwf.
  destruct (to_vector_enumerates (until_enumerates P (range_enumerates Hwf)))
    as (e' & Hv & Hx & _).
  destruct (prefix_until_spec P (range_elems r)) as (rest & Heq & Hall & Hrest).
  exists (prefix_until P (range_elems r)), rest, e'.
  repeat (split; [assumption || reflexivity |]). split.
  - intros x l' Hl Hp. rewrite Hl. cbn [prefix_until]. rewrite Hp. reflexivity.
  - apply prefix_until_all.
Qed.

Lemma until_to_vector_prefix_witness :
  wf_range (from_all [1; 3; 4; 5]%Z)
  /\ exists v rest e',
       to_vector (until (from_all [1; 3; 4; 5]%Z) is_even) ==> (v, e')
       /\ has_more e' ==> false
       /\ v = prefix_until is_even (range_elems (from_all [1; 3; 4; 5]%Z))
       /\ range_elems (from_all [1; 3; 4; 5]%Z) = v ++ rest
       /\ (forall x, In x v -> is_even x = false)
       /\ match rest with [] => True | y :: _ => is_even y = true end
       /\ (forall x l', range_elems (from_all [1; 3; 4; 5]%Z) = x :: l' ->
                        is_even x = true -> v = [])
       /\ ((forall x, In x (range_elems (from_all [1; 3; 4; 5]%Z)) ->
                      is_even x = false) ->
           v = range_elems (from_all [1; 3; 4; 5]%Z)).
Proof.
  split.
  - unfold wf_range. cbn. lia.
  - apply (@until_to_vector_prefix _ (from_all [1; 3; 4; 5]%Z) is_even).
    unfold wf_range. cbn. lia.
Defined.

(** C7: [operator++] of [until] advances the parent only when the adapter's
    own [operator bool] was [true] before; once that has answered [false]
    (the stopping element is the parent's current one, or the parent is
    exhausted), any number of further calls returns the adapter unchanged:
    the parent is not called and keeps its state. *)
Theorem until_next_only_while_more {E T} `{enumerator E T}
    (u : until_enumerator E T) (n : nat) (b : bool) :
  has_more u n = Ret b ->
  next u n
  = (if b
     then p' <- next (until_parent_ u) ;;
          ret {| until_parent_ := p';
                 until_predicate_ := until_predicate_ u |}
     else ret u) n
  /\ (b = false ->
      forall k,
        advance_n k u n = Ret u
        /\ outcome_map (@until_parent_ E T) (advance_n k u n)
           = Ret (until_parent_ u)).
Proof.
  intros Hm. split.
  - cbn [next until_is_enumerator]. unfold until_next, bind at 1.
    cbn in Hm. rewrite Hm. reflexivity.
  - intros -> k. rewrite (@until_stopped _ _ _ u n k Hm). split; reflexivity.
Qed.

Lemma until_next_only_while_more_witness :
  has_more (until (watch (from [1; 4; 5]%Z 1 3)) is_even) 1 = Ret false
  /\ (next (until (watch (from [1; 4; 5]%Z 1 3)) is_even) 1
      = (if false
         then p' <- next (until_parent_
                            (until (watch (from [1; 4; 5]%Z 1 3)) is_even)) ;;
              ret {| until_parent_ := p';
                     until_predicate_ :=
                       until_predicate_
                         (until (watch (from [1; 4; 5]%Z 1 3)) is_even) |}
         else ret (until (watch (from [1; 4; 5]%Z 1 3)) is_even)) 1
      /\ (false = false ->
          forall k,
            advance_n k (until (watch (from [1; 4; 5]%Z 1 3)) is_even) 1
            = Ret (until (watch (from [1; 4; 5]%Z 1 3)) is_even)
            /\ outcome_map (@until_parent_ _ _)
                 (advance_n k (until (watch (from [1; 4; 5]%Z 1 3)) is_even) 1)
               = Ret (until_parent_
                        (until (watch (from [1; 4; 5]%Z 1 3)) is_even)))).
Proof.
  split.
  - reflexivity.
  - apply (@until_next_only_while_more _ _ _
             (until (watch (from [1; 4; 5]%Z 1 3)) is_even) 1 false).
    reflexivity.
Defined.

(** C8: draining [select(f)] returns [f] applied to each element that
    draining the parent returns, and leaves the parent in the same state;
    draining [select(f).select(g)] returns the same vector, and leaves the
    parent in the same state, as draining [select] of the composition of
    [g] after [f]. *)
Theorem select_functor_laws {E T U V} `{enumerator E T}
    (p : E) (f : T -> U) (g : U -> V) (n : nat) :
  to_vector (select p f) n = outcome_map (select_result f) (to_vector p n)
  /\ outcome_map fst (to_vector (select (select p f) g) n)
     = outcome_map fst (to_vector (select p (fun x => g (f x))) n)
  /\ outcome_map (fun r => select_parent_ (select_parent_ (snd r)))
       (to_vector (select (select p f) g) n)
     = outcome_map (fun r => select_parent_ (snd r))
         (to_vector (select p (fun x => g (f x))) n).
Proof.
  split; [apply to_vector_select |].
  rewrite (to_vector_select g (select p f) n).
  rewrite (to_vector_select f p n).
  rewrite (to_vector_select (fun x => g (f x)) p n).
  destruct (to_vector p n) as [[v p'] | |]; cbn; try (split; reflexivity).
  rewrite map_map. split; reflexivity.
Qed.

(** Whatever the pipeline, a run of [to_vector] that returns the vector [v]
    and the state [e'] is matched by [copy_to] through an iterator with room
    for [v]: it writes [v] and leaves the same state, which is exhausted. *)
Lemma copy_to_follows_to_vector {E T} `{enumerator E T}
    (e e' : E) (v : list T) (it : out_iter T) (n : nat) :
  to_vector e n = Ret (v, e') ->
  cursor it + length v <= length (storage it) ->
  copy_to e it n = Ret (e', written it v)
  /\ has_more e' n = Ret false.
Proof.
  intros Hv Hroom. unfold to_vector in Hv.
  destruct (copy_to_loop_simulates n e [] it n Hv) as (suffix & Hs & Hx & Hc).
  cbn [app] in Hs. subst suffix.
  split; [exact (Hc Hroom) | exact Hx].
Qed.

(** C9: the two sinks agree and both consume the pipeline.  For every
    pipeline [e] over a sequence [l], and every output iterator [it] into
    storage of its own (apart from what the pipeline reads) with room for
    [l]: [to_vector] returns [l]; [copy_to] returns, having written [l] from
    the iterator's position on, one element per position and in order, the
    rest of the storage unchanged and the iterator moved behind the last
    element written; both leave the pipeline in the same state [e'], reached
    by one advance for each element of [l], and exhausted.  On an exhausted
    pipeline [x] either sink returns with nothing collected, nothing written
    and the pipeline as it was. *)
Theorem sinks_agree {E T} `{enumerator E T}
    (e x : E) (l : list T) (it : out_iter T) :
  enumerates e l ->
  cursor it + length l <= length (storage it) ->
  has_more x ==> false ->
  (exists e',
      to_vector e ==> (l, e')
      /\ copy_to e it
           ==> (e', {| storage := firstn (cursor it) (storage it) ++ l
                                    ++ skipn (cursor it + length l) (storage it);
                       cursor := cursor it + length l |})
      /\ advanced (length l) e e'
      /\ has_more e' ==> false)
  /\ to_vector x ==> ([], x)
  /\ (forall it', copy_to x it' ==> (x, it')).
Proof.
  intros He Hroom Hx. split.
  - destruct (to_vector_enumerates He) as (e' & Hv & Hex & Ha).
    exists e'. split; [exact Hv | split; [| split; assumption]].
    destruct Hv as [N HN]. exists N. intros n Hn. specialize (HN n Hn).
    unfold to_vector in HN.
    destruct (copy_to_loop_simulates n e [] it n HN) as (suffix & Hs & _ & Hc).
    cbn [app] in Hs. subst suffix. exact (Hc Hroom).
  - destruct Hx as [N HN].
    assert (Hboth : forall n, S N <= n ->
              to_vector x n = Ret ([], x)
              /\ forall it', copy_to x it' n = Ret (x, it')).
    { intros n Hn. destruct n as [| n]; [lia |].
      apply sinks_on_exhausted. apply HN. lia. }
    split.
    + exists (S N). intros n Hn. apply (Hboth n Hn).
    + intros it'. exists (S N). intros n Hn. apply (Hboth n Hn).
Qed.

Lemma sinks_agree_witness :
  enumerates (until (from_all [1; 3; 4; 5]%Z) is_even) [1; 3]%Z
  /\ cursor {| storage := [0; 0; 0; 0]%Z; cursor := 1 |} + length [1; 3]%Z
     <= length (storage {| storage := [0; 0; 0; 0]%Z; cursor := 1 |})
  /\ has_more (until (from [1; 3; 4; 5]%Z 2 4) is_even) ==> false
  /\ ((exists e',
          to_vector (until (from_all [1; 3; 4; 5]%Z) is_even)
            ==> ([1; 3]%Z, e')
          /\ copy_to (until (from_all [1; 3; 4; 5]%Z) is_even)
               {| storage := [0; 0; 0; 0]%Z; cursor := 1 |}
               ==> (e', {| storage :=
                             firstn (cursor {| storage := [0; 0; 0; 0]%Z;
                                               cursor := 1 |})
                               (storage {| storage := [0; 0; 0; 0]%Z;
                                           cursor := 1 |})
                             ++ [1; 3]%Z
                             ++ skipn (cursor {| storage := [0; 0; 0; 0]%Z;
                                                 cursor := 1 |}
                                       + length [1; 3]%Z)
                                  (storage {| storage := [0; 0; 0; 0]%Z;
                                              cursor := 1 |});
                           cursor := cursor {| storage := [0; 0; 0; 0]%Z;
                                               cursor := 1 |}
                                     + length [1; 3]%Z |})
          /\ advanced (length [1; 3]%Z)
               (until (from_all [1; 3; 4; 5]%Z) is_even) e'
          /\ has_more e' ==> false)
      /\ to_vector (until (from [1; 3; 4; 5]%Z 2 4) is_even)
           ==> ([], until (from [1; 3; 4; 5]%Z 2 4) is_even)
      /\ (forall it',
             copy_to (until (from [1; 3; 4; 5]%Z 2 4) is_even) it'
               ==> (until (from [1; 3; 4; 5]%Z 2 4) is_even, it'))).
Proof.
  assert (He : enumerates (until (from_all [1; 3; 4; 5]%Z) is_even) [1; 3]%Z).
  { exact (until_enumerates is_even (from_all_enumerates [1; 3; 4; 5]%Z)). }
  split; [exact He |].
  split; [cbn; lia |].
  split; [exists 0; reflexivity |].
  apply (@sinks_agree _ _ _ (until (from_all [1; 3; 4; 5]%Z) is_even)
           (until (from [1; 3; 4; 5]%Z 2 4) is_even) [1; 3]%Z
           {| storage := [0; 0; 0; 0]%Z; cursor := 1 |}).
  - exact He.
  - cbn. lia.
  - exists 0. reflexivity.
Defined.

(** C10: a negative count behaves as zero.  For [n < 0], the constructor
    of [drop(n)] does not advance the parent and returns the same adapter
    as [drop(0)]; [take(n)], like [take(0)], is exhausted from the start
    and drains to the empty vector. *)
Theorem negative_counts_as_zero {E T} `{enumerator E T}
    (p : E) (n : Z) (b : bool) :
  (n < 0)%Z -> has_more p ==> b ->
  (forall fuel,
      drop (watch p) n fuel
      = Ret {| drop_parent_ := {| inner := p; calls := 0 |} |})
  /\ (forall fuel, drop p n fuel = drop p 0 fuel)
  /\ has_more (take p n) ==> false
  /\ to_vector (take p n) ==> ([], take p n)
  /\ has_more (take p 0) ==> false
  /\ to_vector (take p 0) ==> ([], take p 0).
Proof.
  intros Hn Hm.
  assert (Hz : Z.to_nat n = 0) by lia.
  split; [| split].
  - intros fuel. rewrite drop_advance_n, Hz. reflexivity.
  - intros fuel. rewrite !drop_advance_n, Hz. reflexivity.
  - assert (Hn0 : (n <= 0)%Z) by lia.
    assert (H00 : (0 <= 0)%Z) by lia.
    destruct (take_exhausted p Hn0 Hm) as [H1 H2].
    destruct (take_exhausted p H00 Hm) as [H3 H4].
    repeat split; assumption.
Qed.

Lemma negative_counts_as_zero_witness :
  (-3 < 0)%Z /\ has_more (from_all [1; 2]%Z) ==> true
  /\ ((forall fuel,
          drop (watch (from_all [1; 2]%Z)) (-3) fuel
          = Ret {| drop_parent_ :=
                     {| inner := from_all [1; 2]%Z; calls := 0 |} |})
      /\ (forall fuel,
             drop (from_all [1; 2]%Z) (-3) fuel
             = drop (from_all [1; 2]%Z) 0 fuel)
      /\ has_more (take (from_all [1; 2]%Z) (-3)) ==> false
      /\ to_vector (take (from_all [1; 2]%Z) (-3))
           ==> ([], take (from_all [1; 2]%Z) (-3))
      /\ has_more (take (from_all [1; 2]%Z) 0) ==> false
      /\ to_vector (take (from_all [1; 2]%Z) 0)
           ==> ([], take (from_all [1; 2]%Z) 0)).
Proof.
  split; [reflexivity |].
  split; [exists 0; reflexivity |].
  apply (@negative_counts_as_zero _ _ _ (from_all [1; 2]%Z) (-3) true).
  - reflexivity.
  - exists 0. reflexivity.
Defined.

(** * Further properties of the header *)

(** ** The source cursor *)

Lemma range_elems_length {T} (r : range_enumerator T) :
  wf_range r -> length (range_elems r) = end_ r - begin_ r.
Proof.
  intros [Hbe Hel]. unfold range_elems.
  rewrite length_firstn, length_skipn. lia.
Qed.

Lemma range_next_inv {T} (r r' : range_enumerator T) n :
  next r n = Ret r' ->
  begin_ r < length (data r) /\ r' = from (data r) (S (begin_ r)) (end_ r).
Proof.
  cbn. unfold range_next. destruct (begin_ r <? length (data r)) eqn:Hb;
    [| discriminate].
  intros Hr. injection Hr as <-. apply Nat.ltb_lt in Hb. split; [exact Hb |].
  reflexivity.
Qed.

Lemma range_advanced_state {T} k : forall r r' : range_enumerator T,
  advanced k r r' -> r' = from (data r) (begin_ r + k) (end_ r).
Proof.
  induction k as [| k IH]; intros r r' Ha; inversion Ha; subst.
  - destruct r' as [d b e]. unfold from. cbn. rewrite Nat.add_0_r. reflexivity.
  - match goal with
    | Hn : next r ==> ?e1, Hr : advanced k ?e1 r' |- _ =>
        apply IH in Hr; apply returns_at in Hn; destruct Hn as [n Hn];
        apply range_next_inv in Hn; destruct Hn as [_ ->]; rewrite Hr
    end.
    unfold from. cbn. f_equal. lia.
Qed.

Lemma range_advance_n {T} k : forall (r : range_enumerator T) n,
  begin_ r + k <= length (data r) ->
  advance_n k r n = Ret (from (data r) (begin_ r + k) (end_ r)).
Proof.
  induction k as [| k IH]; intros r n Hk.
  - destruct r as [d b e]. unfold from. cbn. unfold ret.
    rewrite Nat.add_0_r. reflexivity.
  - cbn [advance_n]. unfold bind. cbn [next range_is_enumerator].
    unfold range_next.
    replace (begin_ r <? length (data r)) with true
      by (symmetry; apply Nat.ltb_lt; lia).
    unfold ret. rewrite IH by (cbn; clear IH; lia).
    clear IH. unfold from. cbn. do 2 f_equal. lia.
Qed.

(** X1: draining a well-formed range with [to_vector] returns exactly the
    elements between [begin_] and [end_], and leaves the cursor standing on
    [end_]; over a whole container the result is the container. *)
Theorem range_to_vector {T} (r : range_enumerator T) (d : list T) :
  wf_range r ->
  to_vector r ==> (range_elems r, from (data r) (end_ r) (end_ r))
  /\ to_vector (from_all d) ==> (d, from d (length d) (length d)).
Proof.
  assert (Hgen : forall r0 : range_enumerator T, wf_range r0 ->
            to_vector r0
              ==> (range_elems r0, from (data r0) (end_ r0) (end_ r0))).
  { intros r0 Hwf.
    destruct (to_vector_enumerates (range_enumerates Hwf)) as (e' & Hv & _ & Ha).
    apply range_advanced_state in Ha.
    rewrite (range_elems_length Hwf) in Ha.
    replace (begin_ r0 + (end_ r0 - begin_ r0)) with (end_ r0) in Ha
      by (destruct Hwf; lia).
    subst e'. exact Hv. }
  intros Hwf. split; [apply Hgen, Hwf |].
  specialize (Hgen (from_all d) (wf_from_all d)).
  rewrite range_elems_from_all in Hgen. exact Hgen.
Qed.

Lemma range_to_vector_witness :
  wf_range (from [1; 2; 3; 4]%Z 1 3)
  /\ (to_vector (from [1; 2; 3; 4]%Z 1 3)
        ==> (range_elems (from [1; 2; 3; 4]%Z 1 3),
             from (data (from [1; 2; 3; 4]%Z 1 3))
                  (end_ (from [1; 2; 3; 4]%Z 1 3))
                  (end_ (from [1; 2; 3; 4]%Z 1 3)))
      /\ to_vector (from_all [5; 6]%Z)
           ==> ([5; 6]%Z, from [5; 6]%Z (length [5; 6]%Z) (length [5; 6]%Z))).
Proof.
  split.
  - unfold wf_range. cbn. lia.
  - apply (@range_to_vector _ (from [1; 2; 3; 4]%Z 1 3) [5; 6]%Z).
    unfold wf_range. cbn. lia.
Defined.

Lemma reversed_range_loop {T} gas : forall (r : range_enumerator T) acc n,
  end_ r < begin_ r ->
  (to_vector_loop gas r acc n = Fault \/ to_vector_loop gas r acc n = Timeout)
  /\ (length (data r) - begin_ r < gas -> to_vector_loop gas r acc n = Fault).
Proof.
  induction gas as [| g IH]; intros r acc n Hrev.
  - split; [right; reflexivity | lia].
  - cbn [to_vector_loop]. unfold bind.
    cbn [has_more deref next range_is_enumerator].
    unfold range_has_more, range_deref, range_next, ret.
    replace (begin_ r =? end_ r) with false
      by (symmetry; apply Nat.eqb_neq; lia).
    cbn [negb].
    destruct (nth_error (data r) (begin_ r)) as [x |] eqn:Hx;
      [| split; [left |]; reflexivity].
    assert (Hb : begin_ r < length (data r)).
    { apply nth_error_Some. rewrite Hx. discriminate. }
    replace (begin_ r <? length (data r)) with true
      by (symmetry; apply Nat.ltb_lt; exact Hb).
    destruct (IH {| data := data r; begin_ := S (begin_ r); end_ := end_ r |}
                 (acc ++ [x]) n) as [H1 H2]; [cbn; lia |].
    split; [exact H1 |]. intros Hg. apply H2. cbn. lia.
Qed.

(** X2: [operator bool] of the source cursor is [begin_ != end_], so a
    cursor whose [begin_] is beyond [end_] never becomes exhausted:
    [to_vector] never returns a vector from it, and once it has stepped
    through what is left of the storage it reads outside it. *)
Theorem reversed_range_never_returns {T} (r : range_enumerator T) :
  end_ r < begin_ r ->
  (forall n, to_vector r n = Fault \/ to_vector r n = Timeout)
  /\ (forall n, length (data r) - begin_ r < n -> to_vector r n = Fault).
Proof.
  intros Hrev. split.
  - intros n. apply (reversed_range_loop n r [] n Hrev).
  - intros n Hn. apply (reversed_range_loop n r [] n Hrev). exact Hn.
Qed.

Lemma reversed_range_never_returns_witness :
  end_ (from [1; 2; 3]%Z 2 1) < begin_ (from [1; 2; 3]%Z 2 1)
  /\ ((forall n, to_vector (from [1; 2; 3]%Z 2 1) n = Fault
                 \/ to_vector (from [1; 2; 3]%Z 2 1) n = Timeout)
      /\ (forall n, length (data (from [1; 2; 3]%Z 2 1))
                    - begin_ (from [1; 2; 3]%Z 2 1) < n ->
                    to_vector (from [1; 2; 3]%Z 2 1) n = Fault)).
Proof.
  split.
  - cbn. lia.
  - apply (@reversed_range_never_returns _ (from [1; 2; 3]%Z 2 1)).
    cbn. lia.
Defined.

(** ** [drop] and [take] *)

Lemma range_elems_skip {T} (d : list T) b e k :
  range_elems (from d (b + k) e) = skipn k (range_elems (from d b e)).
Proof.
  unfold range_elems, from. cbn.
  rewrite skipn_firstn_comm, skipn_skipn.
  replace (k + b) with (b + k) by lia.
  replace (e - b - k) with (e - (b + k)) by lia. reflexivity.
Qed.

(** X3: over a well-formed range and for a count [k] between [0] and the
    number of its elements, the constructor of [drop] moves [begin_] forward
    by [k], whatever the fuel, and draining the adapter returns the range
    without its first [k] elements. *)
Theorem drop_range_within {T} (r : range_enumerator T) (k : Z) :
  wf_range r -> (0 <= k <= Z.of_nat (length (range_elems r)))%Z ->
  (forall n,
      drop r k n
      = Ret {| drop_parent_ :=
                 from (data r) (begin_ r + Z.to_nat k) (end_ r) |})
  /\ exists e',
       (d <- drop r k ;; to_vector d)
         ==> (skipn (Z.to_nat k) (range_elems r), e')
       /\ has_more e' ==> false.
Proof.
  intros Hwf Hk. pose proof (range_elems_length Hwf) as Hlen.
  destruct Hwf as [Hbe Hel].
  assert (Hdrop : forall n,
             drop r k n
             = Ret {| drop_parent_ :=
                        from (data r) (begin_ r + Z.to_nat k) (end_ r) |}).
  { intros n. rewrite drop_advance_n. unfold bind.
    rewrite range_advance_n by lia. reflexivity. }
  split; [exact Hdrop |].
  assert (Hwf' : wf_range (from (data r) (begin_ r + Z.to_nat k) (end_ r))).
  { unfold wf_range, from. cbn. lia. }
  destruct (to_vector_enumerates
              (drop_state_enumerates (range_enumerates Hwf')))
    as (e' & Hv & Hx & _).
  exists e'. split; [| exact Hx].
  rewrite range_elems_skip in Hv.
  replace (from (data r) (begin_ r) (end_ r)) with r in Hv
    by (destruct r; reflexivity).
  eapply returns_bind; [| exact Hv].
  exists 0. intros n _. apply Hdrop.
Qed.

Lemma drop_range_within_witness :
  wf_range (from_all [1; 2; 3; 4]%Z)
  /\ (0 <= 3 <= Z.of_nat (length (range_elems (from_all [1; 2; 3; 4]%Z))))%Z
  /\ ((forall n,
          drop (from_all [1; 2; 3; 4]%Z) 3 n
          = Ret {| drop_parent_ :=
                     from (data (from_all [1; 2; 3; 4]%Z))
                          (begin_ (from_all [1; 2; 3; 4]%Z) + Z.to_nat 3)
                          (end_ (from_all [1; 2; 3; 4]%Z)) |})
      /\ exists e',
           (d <- drop (from_all [1; 2; 3; 4]%Z) 3 ;; to_vector d)
             ==> (skipn (Z.to_nat 3) (range_elems (from_all [1; 2; 3; 4]%Z)),
                  e')
           /\ has_more e' ==> false).
Proof.
  split; [unfold wf_range; cbn; lia |].
  split; [cbn; lia |].
  apply (@drop_range_within _ (from_all [1; 2; 3; 4]%Z) 3).
  - unfold wf_range. cbn. lia.
  - cbn. lia.
Defined.

Section DropCompose.
Context {E T : Type} `{enumerator E T}.

Lemma advance_n_add a : forall b (p : E) n,
  advance_n (a + b) p n = (p' <- advance_n a p ;; advance_n b p') n.
Proof.
  induction a as [| a IH]; intros b p n; [reflexivity |].
  cbn [plus advance_n]. unfold bind at 1 2 3.
  destruct (next p n) as [p1 | |]; try reflexivity.
  rewrite IH. reflexivity.
Qed.

Lemma drop_state_advance_n k : forall (p : E) n,
  advance_n k {| drop_parent_ := p |} n
  = outcome_map (fun p' => {| drop_parent_ := p' |}) (advance_n k p n).
Proof.
  induction k as [| k IH]; intros p n; [reflexivity |].
  cbn [advance_n]. cbn [next drop_is_enumerator]. unfold drop_next, bind.
  cbn [drop_parent_]. destruct (next p n) as [p1 | |]; try reflexivity.
  unfold ret. apply IH.
Qed.
End DropCompose.

(** X4: dropping [a] and then [b] elements is dropping [a + b], for counts
    that are not negative: on any parent and any fuel, [drop(a).drop(b)]
    leaves the parent in the state [drop(a + b)] leaves it in, and fails
    when that fails. *)
Theorem drop_drop {E T} `{enumerator E T} (p : E) (a b : Z) (n : nat) :
  (0 <= a)%Z -> (0 <= b)%Z ->
  outcome_map (fun d => drop_parent_ (drop_parent_ d))
    ((d <- drop p a ;; drop d b) n)
  = outcome_map (@drop_parent_ E) (drop p (a + b) n).
Proof.
  intros Ha Hb. unfold bind. rewrite !drop_advance_n. unfold bind.
  replace (Z.to_nat (a + b)) with (Z.to_nat a + Z.to_nat b) by lia.
  rewrite advance_n_add. unfold bind.
  destruct (advance_n (Z.to_nat a) p n) as [p1 | |]; try reflexivity.
  unfold ret. rewrite drop_advance_n. unfold bind.
  rewrite drop_state_advance_n.
  destruct (advance_n (Z.to_nat b) p1 n) as [p2 | |]; reflexivity.
Qed.

Lemma drop_drop_witness :
  (0 <= 1)%Z /\ (0 <= 2)%Z
  /\ outcome_map (fun d => drop_parent_ (drop_parent_ d))
       ((d <- drop (from_all [1; 2; 3; 4]%Z) 1 ;; drop d 2) 0)
     = outcome_map (@drop_parent_ _) (drop (from_all [1; 2; 3; 4]%Z) (1 + 2) 0).
Proof.
  split; [lia |]. split; [lia |].
  apply (@drop_drop _ _ _ (from_all [1; 2; 3; 4]%Z) 1 2 0); lia.
Defined.

(** X5: over a parent that enumerates [l], [drop(k)] with [0 <= k <= |l|]
    followed by [take(m)] drains to the first [m] of the elements of [l]
    after the first [k]. *)
Theorem drop_then_take {E T} `{enumerator E T} (p : E) (l : list T) (k m : Z) :
  enumerates p l -> (0 <= k <= Z.of_nat (length l))%Z ->
  exists e',
    (d <- drop p k ;; to_vector (take d m))
      ==> (firstn (Z.to_nat m) (skipn (Z.to_nat k) l), e')
    /\ has_more e' ==> false.
Proof.
  intros He Hk.
  destruct (advance_n_enumerates (k := Z.to_nat k) He) as (p' & Hp' & Hep' & _);
    [lia |].
  destruct (to_vector_enumerates
              (take_enumerates (drop_state_enumerates Hep') m))
    as (e' & Hv & Hx & _).
  exists e'. split; [| exact Hx].
  eapply returns_bind; [| exact Hv].
  destruct Hp' as [N HN]. exists N. intros n Hn.
  rewrite drop_advance_n. unfold bind. rewrite HN by lia. reflexivity.
Qed.

Lemma drop_then_take_witness :
  enumerates (from_all [0; 1; 2; 3; 4; 5; 6]%Z) [0; 1; 2; 3; 4; 5; 6]%Z
  /\ (0 <= 2 <= Z.of_nat (length [0; 1; 2; 3; 4; 5; 6]%Z))%Z
  /\ exists e',
       (d <- drop (from_all [0; 1; 2; 3; 4; 5; 6]%Z) 2 ;; to_vector (take d 3))
         ==> (firstn (Z.to_nat 3)
                (skipn (Z.to_nat 2) [0; 1; 2; 3; 4; 5; 6]%Z), e')
       /\ has_more e' ==> false.
Proof.
  split; [apply from_all_enumerates |].
  split; [cbn; lia |].
  apply (@drop_then_take _ _ _ (from_all [0; 1; 2; 3; 4; 5; 6]%Z)
           [0; 1; 2; 3; 4; 5; 6]%Z 2 3).
  - apply from_all_enumerates.
  - cbn. lia.
Defined.

(** X6: [take(a).take(b)] over a parent that enumerates [l] drains to the
    first [min a b] elements of [l]. *)
Theorem take_take {E T} `{enumerator E T} (p : E) (l : list T) (a b : Z) :
  enumerates p l ->
  exists e',
    to_vector (take (take p a) b)
      ==> (firstn (Nat.min (Z.to_nat b) (Z.to_nat a)) l, e')
    /\ has_more e' ==> false.
Proof.
  intros He.
  destruct (to_vector_enumerates (take_enumerates (take_enumerates He a) b))
    as (e' & Hv & Hx & _).
  rewrite firstn_firstn in Hv. exists e'. split; assumption.
Qed.

Lemma take_take_witness :
  enumerates (from_all [1; 2; 3; 4]%Z) [1; 2; 3; 4]%Z
  /\ exists e',
       to_vector (take (take (from_all [1; 2; 3; 4]%Z) 3) 2)
         ==> (firstn (Nat.min (Z.to_nat 2) (Z.to_nat 3)) [1; 2; 3; 4]%Z, e')
       /\ has_more e' ==> false.
Proof.
  split; [apply from_all_enumerates |].
  apply (@take_take _ _ _ (from_all [1; 2; 3; 4]%Z) [1; 2; 3; 4]%Z 3 2).
  apply from_all_enumerates.
Defined.

(** X7: once [last_] is at most [1], [operator++] of [take] no longer
    touches the parent: [k] further calls only count [last_] down by [k]
    (as long as that stays an [int]) and return the parent as it was. *)
Theorem take_past_limit {E T} `{enumerator E T}
    (t : take_enumerator E) (k n : nat) :
  (last_ t <= 1)%Z -> (INT_MIN <= last_ t - Z.of_nat k)%Z ->
  advance_n k t n
  = Ret {| take_parent_ := take_parent_ t;
           last_ := (last_ t - Z.of_nat k)%Z |}.
Proof.
  revert t. induction k as [| k IH]; intros t Hl Hmin.
  - destruct t as [p l]. cbn. unfold ret. do 2 f_equal.
    symmetry. apply Z.sub_0_r.
  - cbn [advance_n]. unfold bind at 1. cbn [next take_is_enumerator].
    rewrite take_next_unfold by (clear IH; lia).
    replace (0 <? last_ t - 1)%Z with false
      by (symmetry; apply Z.ltb_ge; clear IH; lia).
    unfold ret. rewrite IH by (cbn [last_]; clear IH; lia).
    cbn [take_parent_ last_]. do 2 f_equal. clear IH. lia.
Qed.

Lemma take_past_limit_witness :
  (last_ (take (watch (from_all [1; 2; 3]%Z)) 1) <= 1)%Z
  /\ (INT_MIN <= last_ (take (watch (from_all [1; 2; 3]%Z)) 1) - Z.of_nat 5)%Z
  /\ advance_n 5 (take (watch (from_all [1; 2; 3]%Z)) 1) 0
     = Ret {| take_parent_ :=
                take_parent_ (take (watch (from_all [1; 2; 3]%Z)) 1);
              last_ := (last_ (take (watch (from_all [1; 2; 3]%Z)) 1)
                        - Z.of_nat 5)%Z |}.
Proof.
  split; [cbn; lia |].
  split; [cbn; unfold INT_MIN; lia |].
  apply (@take_past_limit _ _ _ (take (watch (from_all [1; 2; 3]%Z)) 1) 5 0).
  - cbn. lia.
  - cbn. unfold INT_MIN. lia.
Defined.

(** X8: [to_vector] advances the enumerator once for each element it
    collects: over a call-counting parent that enumerates [l], the counter
    ends at the length of [l]. *)
Theorem to_vector_advances_once_each {E T} `{enumerator E T}
    (p : E) (l : list T) :
  enumerates p l ->
  exists p',
    to_vector (watch p) ==> (l, {| inner := p'; calls := length l |})
    /\ has_more p' ==> false.
Proof.
  intros He.
  destruct (to_vector_enumerates (counting_enumerates He 0))
    as ([p' c] & Hv & Hx & Ha).
  apply advanced_counting in Ha. cbn [calls plus] in Ha. subst c.
  exists p'. split; [exact Hv | exact Hx].
Qed.

Lemma to_vector_advances_once_each_witness :
  enumerates (from_all [4; 5; 6]%Z) [4; 5; 6]%Z
  /\ exists p',
       to_vector (watch (from_all [4; 5; 6]%Z))
         ==> ([4; 5; 6]%Z, {| inner := p'; calls := length [4; 5; 6]%Z |})
       /\ has_more p' ==> false.
Proof.
  split; [apply from_all_enumerates |].
  apply (@to_vector_advances_once_each _ _ _ (from_all [4; 5; 6]%Z)
           [4; 5; 6]%Z).
  apply from_all_enumerates.
Defined.

(** ** [until] *)
Section UntilMore.
Context {E T : Type} `{enumerator E T}.
Variable P : T -> bool.

Lemma until_drain (p : E) l :
  enumerates p l ->
  forall acc, exists p',
    loop_returns (fun gas => to_vector_loop gas (until p P) acc)
                 (acc ++ prefix_until P l, until p' P)
    /\ advanced (length (prefix_until P l)) p p'
    /\ enumerates p' (skipn (length (prefix_until P l)) l).
Proof.
  induction 1 as [e Hm | e e1 x l Hm Hd Hn He IH]; intros acc.
  - exists e. split; [| split; [constructor | apply enumerates_nil; exact Hm]].
    destruct Hm as [N HN]. exists (S N). intros gas n Hg Hfu.
    destruct gas as [| g]; [lia |]. cbn [to_vector_loop].
    cbn [has_more until_is_enumerator]. unfold until_has_more.
    cbn [until until_parent_]. fuel_steps. rewrite app_nil_r. reflexivity.
  - cbn [prefix_until]. destruct (P x) eqn:Hp.
    + exists e. split;
        [| split; [constructor | eapply enumerates_cons; eassumption]].
      destruct Hm as [N1 HN1], Hd as [N2 HN2].
      exists (S (N1 + N2)). intros gas n Hg Hfu.
      destruct gas as [| g]; [lia |]. cbn [to_vector_loop].
      cbn [has_more until_is_enumerator]. unfold until_has_more.
      cbn [until until_parent_ until_predicate_]. fuel_steps.
      unfold ret. rewrite Hp. cbn [negb]. rewrite app_nil_r. reflexivity.
    + destruct (IH (acc ++ [x])) as (p' & [N4 HL] & Hadv & Hep').
      exists p'. split; [| split; [econstructor; eassumption | exact Hep']].
      destruct Hm as [N1 HN1], Hd as [N2 HN2], Hn as [N3 HN3].
      exists (S (N1 + N2 + N3 + N4)). intros gas n Hg Hfu.
      destruct gas as [| g]; [lia |]. cbn [to_vector_loop].
      cbn [has_more deref next until_is_enumerator].
      unfold until_next, until_has_more, until_deref.
      cbn [until until_parent_ until_predicate_]. fuel_steps.
      unfold ret. rewrite Hp. cbn [negb]. fuel_steps.
      rewrite ?Hp. cbn [negb]. fuel_steps.
      change {| until_parent_ := e1; until_predicate_ := P |}
        with (until e1 P).
      rewrite HL by lia. rewrite <- app_assoc. reflexivity.
Qed.

Lemma until_advance_n_enumerates k : forall (p : E) l,
  enumerates p l ->
  exists u', advance_n k (until p P) ==> u'
             /\ enumerates u' (skipn k (prefix_until P l)).
Proof.
  induction k as [| k IH]; intros p l He.
  - exists (until p P). split; [apply returns_ret |].
    apply until_enumerates. exact He.
  - pose proof (until_enumerates P He) as Hu.
    destruct (prefix_until P l) as [| y v] eqn:Hv.
    + exists (until p P). rewrite skipn_nil. split; [| exact Hu].
      inversion Hu as [u Hm |]; subst. destruct Hm as [N HN].
      exists N. intros n Hn. apply until_stopped. apply HN. exact Hn.
    + destruct He as [e Hm | e e1 x l Hm Hd Hn He]; [discriminate |].
      cbn [prefix_until] in Hv. destruct (P x) eqn:Hp; [discriminate |].
      injection Hv as -> <-.
      destruct (IH e1 l He) as (u' & Hu' & Heu'). exists u'.
      cbn [skipn]. split; [| exact Heu'].
      cbn [advance_n]. eapply returns_bind; [| exact Hu'].
      cbn [next until_is_enumerator]. unfold until_next.
      eapply returns_bind.
      * unfold until_has_more. cbn [until until_parent_ until_predicate_].
        eapply returns_bind; [exact Hm |].
        eapply returns_bind; [exact Hd | apply returns_ret].
      * rewrite Hp. cbn [negb until until_parent_ until_predicate_].
        eapply returns_bind; [exact Hn | apply returns_ret].
Qed.
End UntilMore.

(** X9: draining [until(P)] consumes from the parent only what it returns:
    the parent is advanced once for each element collected and is left on
    the rest of the sequence, the stopping element first. *)
Theorem until_leaves_rest {E T} `{enumerator E T}
    (p : E) (l : list T) (P : T -> bool) :
  enumerates p l ->
  exists p',
    to_vector (until p P) ==> (prefix_until P l, until p' P)
    /\ advanced (length (prefix_until P l)) p p'
    /\ enumerates p' (skipn (length (prefix_until P l)) l).
Proof.
  intros He. destruct (until_drain P He []) as (p' & HL & Ha & Hp').
  exists p'. split; [exact (loop_returns_diag HL) | split; assumption].
Qed.

Lemma until_leaves_rest_witness :
  enumerates (from_all [1; 3; 4; 5]%Z) [1; 3; 4; 5]%Z
  /\ exists p',
       to_vector (until (from_all [1; 3; 4; 5]%Z) is_even)
         ==> (prefix_until is_even [1; 3; 4; 5]%Z, until p' is_even)
       /\ advanced (length (prefix_until is_even [1; 3; 4; 5]%Z))
            (from_all [1; 3; 4; 5]%Z) p'
       /\ enumerates p'
            (skipn (length (prefix_until is_even [1; 3; 4; 5]%Z))
               [1; 3; 4; 5]%Z).
Proof.
  split; [apply from_all_enumerates |].
  apply (@until_leaves_rest _ _ _ (from_all [1; 3; 4; 5]%Z) [1; 3; 4; 5]%Z
           is_even).
  apply from_all_enumerates.
Defined.

(** X10: because [operator++] of [until] checks [operator bool] first,
    [drop] over an [until] adapter is safe for every count that is not
    negative, also one beyond the number of elements left: draining returns
    what [until] yields without its first [k] elements, the empty vector
    when there are fewer. *)
Theorem drop_over_until {E T} `{enumerator E T}
    (p : E) (l : list T) (P : T -> bool) (k : Z) :
  enumerates p l -> (0 <= k)%Z ->
  exists e',
    (d <- drop (until p P) k ;; to_vector d)
      ==> (skipn (Z.to_nat k) (prefix_until P l), e')
    /\ has_more e' ==> false
    /\ (Z.of_nat (length (prefix_until P l)) <= k ->
        (d <- drop (until p P) k ;; to_vector d) ==> ([], e'))%Z.
Proof.
  intros He Hk.
  destruct (until_advance_n_enumerates P (Z.to_nat k) He) as (u' & Hu' & Heu').
  destruct (to_vector_enumerates (drop_state_enumerates Heu'))
    as (e' & Hv & Hx & _).
  assert (Hrun : (d <- drop (until p P) k ;; to_vector d)
                   ==> (skipn (Z.to_nat k) (prefix_until P l), e')).
  { eapply returns_bind; [| exact Hv].
    destruct Hu' as [N HN]. exists N. intros n Hn.
    rewrite drop_advance_n. unfold bind. rewrite HN by lia. reflexivity. }
  exists e'. split; [exact Hrun | split; [exact Hx |]].
  intros Hlen. rewrite skipn_all2 in Hrun by lia. exact Hrun.
Qed.

Lemma drop_over_until_witness :
  enumerates (from_all [1; 3; 4; 5]%Z) [1; 3; 4; 5]%Z /\ (0 <= 7)%Z
  /\ exists e',
       (d <- drop (until (from_all [1; 3; 4; 5]%Z) is_even) 7 ;; to_vector d)
         ==> (skipn (Z.to_nat 7) (prefix_until is_even [1; 3; 4; 5]%Z), e')
       /\ has_more e' ==> false
       /\ (Z.of_nat (length (prefix_until is_even [1; 3; 4; 5]%Z)) <= 7 ->
           (d <- drop (until (from_all [1; 3; 4; 5]%Z) is_even) 7 ;;
            to_vector d) ==> ([], e'))%Z.
Proof.
  split; [apply from_all_enumerates |].
  split; [lia |].
  apply (@drop_over_until _ _ _ (from_all [1; 3; 4; 5]%Z) [1; 3; 4; 5]%Z
           is_even 7).
  - apply from_all_enumerates.
  - lia.
Defined.

(** X11: [until_eq(object)] over a well-formed range drains to the elements
    before the first one equal to [object], so, [operator==] being
    reflexive, [object] is never among them. *)
Theorem until_eq_excludes {T} (eqb : T -> T -> bool)
    (r : range_enumerator T) (object : T) :
  wf_range r -> (forall a, eqb a a = true) ->
  exists v e',
    to_vector (until_eq eqb r object) ==> (v, e')
    /\ v = prefix_until (fun check => eqb check object) (range_elems r)
    /\ ~ In object v.
Proof.
  intros Hwf Hrefl. unfold until_eq.
  destruct (to_vector_enumerates
              (until_enumerates (fun check => eqb check object)
                 (range_enumerates Hwf)))
    as (e' & Hv & _).
  exists (prefix_until (fun check => eqb check object) (range_elems r)), e'.
  split; [exact Hv | split; [reflexivity |]].
  destruct (prefix_until_spec (fun check => eqb check object) (range_elems r))
    as (rest & _ & Hall & _).
  intros Hin. apply Hall in Hin. rewrite Hrefl in Hin. discriminate.
Qed.

Lemma until_eq_excludes_witness :
  wf_range (from_all [2; 4; 6; 8]%Z) /\ (forall a, Z.eqb a a = true)
  /\ exists v e',
       to_vector (until_eq Z.eqb (from_all [2; 4; 6; 8]%Z) 6%Z) ==> (v, e')
       /\ v = prefix_until (fun check => Z.eqb check 6%Z)
                (range_elems (from_all [2; 4; 6; 8]%Z))
       /\ ~ In 6%Z v.
Proof.
  split; [unfold wf_range; cbn; lia |].
  split; [apply Z.eqb_refl |].
  apply (@until_eq_excludes _ Z.eqb (from_all [2; 4; 6; 8]%Z) 6%Z).
  - unfold wf_range. cbn. lia.
  - apply Z.eqb_refl.
Defined.

(** ** [where] *)

Lemma filter_filter {T} (P Q : T -> bool) (l : list T) :
  filter Q (filter P l) = filter (fun x => P x && Q x) l.
Proof.
  induction l as [| x l IH]; [reflexivity |].
  cbn [filter]. destruct (P x); cbn [andb filter]; rewrite IH; reflexivity.
Qed.

(** X12: [where_neq(object)] over a well-formed range drains to the
    elements of the range that differ from [object], when [eqb] decides
    equality as [operator==] does. *)
Theorem where_neq_keeps_others {T} (eqb : T -> T -> bool)
    (r : range_enumerator T) (object : T) :
  wf_range r -> (forall a b, eqb a b = true <-> a = b) ->
  exists v e',
    (w <- where_neq eqb r object ;; to_vector w) ==> (v, e')
    /\ v = filter (fun check => negb (eqb check object)) (range_elems r)
    /\ (forall y, In y v <-> In y (range_elems r) /\ y <> object).
Proof.
  intros Hwf Heq. unfold where_neq.
  destruct (where_enumerates (fun check => negb (eqb check object))
              (range_enumerates Hwf)) as (w & Hw & Hew).
  destruct (to_vector_enumerates Hew) as (e' & Hv & _).
  exists (filter (fun check => negb (eqb check object)) (range_elems r)), e'.
  split; [eapply returns_bind; eassumption | split; [reflexivity |]].
  intros y. rewrite filter_In, negb_true_iff.
  split; intros [Hin Hne]; (split; [exact Hin |]).
  - intros ->. rewrite (proj2 (Heq object object) eq_refl) in Hne.
    discriminate.
  - destruct (eqb y object) eqn:Hy; [| reflexivity].
    apply Heq in Hy. contradiction.
Qed.

Lemma where_neq_keeps_others_witness :
  wf_range (from_all [1; 2; 1; 3; 1]%Z)
  /\ (forall a b, Z.eqb a b = true <-> a = b)
  /\ exists v e',
       (w <- where_neq Z.eqb (from_all [1; 2; 1; 3; 1]%Z) 1%Z ;; to_vector w)
         ==> (v, e')
       /\ v = filter (fun check => negb (Z.eqb check 1%Z))
                (range_elems (from_all [1; 2; 1; 3; 1]%Z))
       /\ (forall y, In y v
                     <-> In y (range_elems (from_all [1; 2; 1; 3; 1]%Z))
                         /\ y <> 1%Z).
Proof.
  split; [unfold wf_range; cbn; lia |].
  split; [apply Z.eqb_eq |].
  apply (@where_neq_keeps_others _ Z.eqb (from_all [1; 2; 1; 3; 1]%Z) 1%Z).
  - unfold wf_range. cbn. lia.
  - apply Z.eqb_eq.
Defined.

(** X13: a [where] adapter can be the parent of another one:
    [where(P).where(Q)] over a parent that enumerates [l] drains to the
    elements of [l] that satisfy both [P] and [Q], in order. *)
Theorem where_where {E T} `{enumerator E T}
    (p : E) (l : list T) (P Q : T -> bool) :
  enumerates p l ->
  exists e',
    (w1 <- where_ p P ;; w2 <- where_ w1 Q ;; to_vector w2)
      ==> (filter (fun x => P x && Q x) l, e')
    /\ has_more e' ==> false.
Proof.
  intros He.
  destruct (where_enumerates P He) as (w1 & Hw1 & Hew1).
  destruct (where_enumerates Q Hew1) as (w2 & Hw2 & Hew2).
  destruct (to_vector_enumerates Hew2) as (e' & Hv & Hx & _).
  rewrite filter_filter in Hv. exists e'. split; [| exact Hx].
  eapply returns_bind; [exact Hw1 |].
  eapply returns_bind; [exact Hw2 | exact Hv].
Qed.

Lemma where_where_witness :
  enumerates (from_all [1; 2; 3; 4; 5; 6]%Z) [1; 2; 3; 4; 5; 6]%Z
  /\ exists e',
       (w1 <- where_ (from_all [1; 2; 3; 4; 5; 6]%Z) is_even ;;
        w2 <- where_ w1 (fun z => (3 <? z)%Z) ;; to_vector w2)
         ==> (filter (fun x => is_even x && (3 <? x)%Z)
                [1; 2; 3; 4; 5; 6]%Z, e')
       /\ has_more e' ==> false.
Proof.
  split; [apply from_all_enumerates |].
  apply (@where_where _ _ _ (from_all [1; 2; 3; 4; 5; 6]%Z)
           [1; 2; 3; 4; 5; 6]%Z is_even (fun z => (3 <? z)%Z)).
  apply from_all_enumerates.
Defined.

Section WhereOverRange.
Context {T : Type}.

Lemma where_while_range_frame gas :
  forall (w w' : where_enumerator (range_enumerator T) T) n,
  where_while gas w n = Ret w' ->
  data (where_parent_ w') = data (where_parent_ w)
  /\ end_ (where_parent_ w') = end_ (where_parent_ w)
  /\ where_predicate_ w' = where_predicate_ w.
Proof.
  induction gas as [| g IH]; intros w w' n Hr; [discriminate |].
  cbn [where_while] in Hr. unfold bind, where_has_more in Hr.
  destruct (has_more (where_parent_ w) n) as [[|] | |]; try discriminate.
  - destruct (deref (where_parent_ w) n) as [x | |]; try discriminate.
    destruct (negb (where_predicate_ w x)).
    + destruct (next (where_parent_ w) n) as [p' | |] eqn:Hn;
        try discriminate.
      apply range_next_inv in Hn. destruct Hn as [_ ->].
      apply IH in Hr. exact Hr.
    + injection Hr as <-. repeat split.
  - injection Hr as <-. repeat split.
Qed.

Lemma where_next_range_frame
    (w w' : where_enumerator (range_enumerator T) T) n :
  next w n = Ret w' ->
  data (where_parent_ w') = data (where_parent_ w)
  /\ end_ (where_parent_ w') = end_ (where_parent_ w)
  /\ where_predicate_ w' = where_predicate_ w.
Proof.
  cbn [next where_is_enumerator]. unfold where_next, bind. intros Hr.
  destruct (next (where_parent_ w) n) as [p' | |] eqn:Hn; try discriminate.
  apply range_next_inv in Hn. destruct Hn as [_ ->].
  apply where_while_range_frame in Hr. exact Hr.
Qed.

Lemma where_advanced_range_frame k :
  forall w w' : where_enumerator (range_enumerator T) T,
  advanced k w w' ->
  data (where_parent_ w') = data (where_parent_ w)
  /\ end_ (where_parent_ w') = end_ (where_parent_ w)
  /\ where_predicate_ w' = where_predicate_ w.
Proof.
  induction k as [| k IH]; intros w w' Ha; inversion Ha; subst.
  - repeat split.
  - match goal with
    | Hn : next w ==> ?e1, Hr : advanced k ?e1 w' |- _ =>
        apply IH in Hr; apply returns_at in Hn; destruct Hn as [n Hn];
        apply where_next_range_frame in Hn;
        destruct Hn as (F1 & F2 & F3), Hr as (F4 & F5 & F6)
    end.
    repeat split; congruence.
Qed.

Lemma where_constructor_range_frame
    (r : range_enumerator T) (P : T -> bool)
    (w : where_enumerator (range_enumerator T) T) n :
  where_ r P n = Ret w ->
  data (where_parent_ w) = data r /\ end_ (where_parent_ w) = end_ r
  /\ where_predicate_ w = P.
Proof.
  unfold where_, bind. intros Hr.
  destruct (has_more r n) as [[|] | |]; try discriminate.
  - destruct (deref r n) as [x | |]; try discriminate.
    destruct (negb (P x)).
    + apply where_next_range_frame in Hr. exact Hr.
    + injection Hr as <-. repeat split.
  - injection Hr as <-. repeat split.
Qed.
End WhereOverRange.

(** X14: a [where] adapter built over a well-formed range and drained
    leaves the range standing exactly on [end_]: every element has been
    visited, and the cursor has not been moved past the end. *)
Theorem where_consumes_range {T} (r : range_enumerator T) (P : T -> bool) :
  wf_range r ->
  (w <- where_ r P ;; to_vector w)
    ==> (filter P (range_elems r),
         where_init (from (data r) (end_ r) (end_ r)) P).
Proof.
  intros Hwf.
  destruct (where_enumerates P (range_enumerates Hwf)) as (w & Hw & Hew).
  destruct (to_vector_enumerates Hew) as (e' & Hv & Hx & Ha).
  apply where_advanced_range_frame in Ha. destruct Ha as (Hd & He & Hp).
  destruct (returns_at Hw) as [n Hn].
  apply where_constructor_range_frame in Hn. destruct Hn as (Hd0 & He0 & Hp0).
  destruct (returns_at Hx) as [m Hm].
  cbn in Hm. unfold where_has_more in Hm. cbn in Hm.
  unfold range_has_more, ret in Hm. injection Hm as Hm.
  apply negb_false_iff, Nat.eqb_eq in Hm.
  assert (He' : e' = where_init (from (data r) (end_ r) (end_ r)) P).
  { destruct e' as [[d b e] Q]. cbn in *. unfold where_init, from.
    congruence. }
  subst e'. eapply returns_bind; eassumption.
Qed.

Lemma where_consumes_range_witness :
  wf_range (from_all [1; 2; 3; 4; 5]%Z)
  /\ (w <- where_ (from_all [1; 2; 3; 4; 5]%Z) is_even ;; to_vector w)
       ==> (filter is_even (range_elems (from_all [1; 2; 3; 4; 5]%Z)),
            where_init (from (data (from_all [1; 2; 3; 4; 5]%Z))
                             (end_ (from_all [1; 2; 3; 4; 5]%Z))
                             (end_ (from_all [1; 2; 3; 4; 5]%Z))) is_even).
Proof.
  split.
  - unfold wf_range. cbn. lia.
  - apply (@where_consumes_range _ (from_all [1; 2; 3; 4; 5]%Z) is_even).
    unfold wf_range. cbn. lia.
Defined.

(** ** [copy_to] without room *)
Section CopyBounds.
Context {E T : Type} `{enumerator E T}.

Lemma copy_to_loop_overflows gas : forall (e e' : E) acc v it n,
  to_vector_loop gas e acc n = Ret (v, e') ->
  exists suffix,
    v = acc ++ suffix
    /\ (cursor it <= length (storage it) ->
        length (storage it) < cursor it + length suffix ->
        copy_to_loop gas e it n = Fault).
Proof.
  induction gas as [| g IH]; intros e e' acc v it n Hr; [discriminate |].
  cbn [to_vector_loop copy_to_loop] in *. unfold bind in *.
  destruct (has_more e n) as [[|] | |] eqn:Hm; try discriminate.
  - destruct (deref e n) as [x | |] eqn:Hd; try discriminate.
    destruct (next e n) as [e1 | |] eqn:Hn; try discriminate.
    destruct (IH e1 e' (acc ++ [x]) v
                (out_incr
                   {| storage := firstn (cursor it) (storage it) ++ x
                                   :: skipn (S (cursor it)) (storage it);
                      cursor := cursor it |}) n Hr)
      as (suffix & Hv & Hcopy).
    exists (x :: suffix). split.
    + rewrite Hv, <- app_assoc. reflexivity.
    + cbn [length]. intros Hcur Hroom. unfold store.
      destruct (cursor it <? length (storage it)) eqn:Hc; [| reflexivity].
      apply Nat.ltb_lt in Hc. unfold ret. apply Hcopy.
      * unfold out_incr. cbn [cursor storage].
        rewrite length_app, length_firstn. cbn [length].
        rewrite length_skipn. lia.
      * unfold out_incr. cbn [cursor storage].
        rewrite length_app, length_firstn. cbn [length].
        rewrite length_skipn. lia.
  - injection Hr as <- <-. exists []. split.
    + rewrite app_nil_r. reflexivity.
    + cbn [length]. intros Hcur Hroom. lia.
Qed.
End CopyBounds.

(** X15: [copy_to] does not check the room behind the output iterator.
    When the pipeline yields the vector [v] and fewer than [length v]
    positions are left in the storage from the iterator's position on,
    [copy_to] writes outside the storage. *)
Theorem copy_to_without_room {E T} `{enumerator E T}
    (e e' : E) (v : list T) (it : out_iter T) (n : nat) :
  to_vector e n = Ret (v, e') ->
  cursor it <= length (storage it) ->
  length (storage it) < cursor it + length v ->
  copy_to e it n = Fault.
Proof.
  intros Hv Hcur Hroom. unfold to_vector in Hv.
  destruct (copy_to_loop_overflows n e [] it n Hv) as (suffix & Hs & Hc).
  cbn [app] in Hs. subst suffix. exact (Hc Hcur Hroom).
Qed.

Lemma copy_to_without_room_witness :
  to_vector (from_all [1; 2; 3]%Z) 4
  = Ret ([1; 2; 3]%Z, from [1; 2; 3]%Z 3 3)
  /\ cursor {| storage := [0; 0; 0]%Z; cursor := 1 |}
     <= length (storage {| storage := [0; 0; 0]%Z; cursor := 1 |})
  /\ length (storage {| storage := [0; 0; 0]%Z; cursor := 1 |})
     < cursor {| storage := [0; 0; 0]%Z; cursor := 1 |} + length [1; 2; 3]%Z
  /\ copy_to (from_all [1; 2; 3]%Z)
       {| storage := [0; 0; 0]%Z; cursor := 1 |} 4 = Fault.
Proof.
  split; [reflexivity |].
  split; [cbn; lia |].
  split; [cbn; lia |].
  apply (@copy_to_without_room _ _ _ (from_all [1; 2; 3]%Z)
           (from [1; 2; 3]%Z 3 3) [1; 2; 3]%Z
           {| storage := [0; 0; 0]%Z; cursor := 1 |} 4).
  - reflexivity.
  - cbn. lia.
  - cbn. lia.
Defined.
